(** * Shell commands plugin: variable parsing and command execution pipeline

    A shallow embedding of the executor, the shell abstraction, the plugin's
    command-palette glue and the prompt fields of the 'Shell commands' plugin,
    together with the properties its specification states about them.

    Conventions of the embedding:
    - a JavaScript string is a [string]: a sequence of code units, each one
      below 256 (the Latin-1 range of UTF-16);
    - a JavaScript number that holds an identifier or an exit code is a [Z];
      this is exact as long as the magnitude stays below 2^53;
    - [null] and [undefined] are [None];
    - calls that reach the host application, the file system or the child
      process are recorded, in program order, in a trace of events; what
      [debugLog] writes to the developer console is not recorded;
    - classes whose sources are not at hand (parsing processes, preactions,
      output channels, concrete shells) appear through what the modelled
      code observes of them. *)

From Stdlib Require Import ZArith Ascii Lia.
From stdpp Require Import gmap strings list.

Local Open Scope Z_scope.

(** ** The parts of the JavaScript runtime the sources rely on *)
Module JS.

(** [WhiteSpace] and [LineTerminator] code units below 256: TAB, LF, VT, FF,
    CR, SP and NBSP. [String.prototype.trim] and [parseInt] strip these. *)
Definition is_white_space (c : ascii) : bool :=
  let n := nat_of_ascii c in
  ((9 <=? n)%nat && (n <=? 13)%nat) || (n =? 32)%nat || (n =? 160)%nat.

Fixpoint trim_start (s : string) : string :=
  match s with
  | String c s' => if is_white_space c then trim_start s' else s
  | EmptyString => EmptyString
  end.

Fixpoint reverse_onto (s acc : string) : string :=
  match s with
  | String c s' => reverse_onto s' (String c acc)
  | EmptyString => acc
  end.

Definition reverse (s : string) : string := reverse_onto s EmptyString.

Definition trim_end (s : string) : string :=
  reverse (trim_start (reverse s)).

(** [s.trim()]. *)
Definition trim (s : string) : string := trim_end (trim_start s).

(** Value of a code unit as a digit of the given radix (10 or 16). *)
Definition digit_value (radix : Z) (c : ascii) : option Z :=
  let n := Z.of_nat (nat_of_ascii c) in
  let v :=
    if (48 <=? n) && (n <=? 57) then Some (n - 48)
    else if (97 <=? n) && (n <=? 122) then Some (n - 87)
    else if (65 <=? n) && (n <=? 90) then Some (n - 55)
    else None in
  match v with
  | Some d => if d <? radix then Some d else None
  | None => None
  end.

(** The longest prefix of digits, read most significant digit first. [seen]
    records whether a digit has been consumed; without one the result is
    [NaN], here [None]. *)
Fixpoint parse_digits (radix : Z) (s : string) (acc : Z) (seen : bool)
  : option Z :=
  match s with
  | String c s' =>
      match digit_value radix c with
      | Some d => parse_digits radix s' (acc * radix + d) true
      | None => if seen then Some acc else None
      end
  | EmptyString => if seen then Some acc else None
  end.

Definition strip_hex_prefix (s : string) : option string :=
  match s with
  | String c1 (String c2 s') =>
      if Ascii.eqb c1 "0" && (Ascii.eqb c2 "x" || Ascii.eqb c2 "X")
      then Some s' else None
  | _ => None
  end.

Definition parse_unsigned (s : string) : option Z :=
  match strip_hex_prefix s with
  | Some s' => parse_digits 16 s' 0 false
  | None => parse_digits 10 s 0 false
  end.

(** [parseInt(s)] with no radix argument: leading white space, an optional
    sign, an optional [0x] prefix, then as many digits as there are. *)
Definition parseInt (s : string) : option Z :=
  match trim_start s with
  | String c s' =>
      if Ascii.eqb c "-" then Z.opp <$> parse_unsigned s'
      else if Ascii.eqb c "+" then parse_unsigned s'
      else parse_unsigned (String c s')
  | EmptyString => parse_unsigned EmptyString
  end.

Definition is_decimal_digit (c : ascii) : bool :=
  let n := nat_of_ascii c in (48 <=? n)%nat && (n <=? 57)%nat.

Fixpoint is_decimal (s : string) : bool :=
  match s with
  | String c s' => is_decimal_digit c && is_decimal s'
  | EmptyString => true
  end.

Definition digit_char (d : Z) : ascii := ascii_of_nat (Z.to_nat (48 + d)).

Fixpoint digits_fuel (fuel : nat) (n : Z) (tail : string) : string :=
  let tail' := String (digit_char (n mod 10)) tail in
  match fuel with
  | O => tail'
  | S fuel' => if n / 10 =? 0 then tail' else digits_fuel fuel' (n / 10) tail'
  end.

(** Decimal digits of a natural number, without leading zeros. *)
Definition digits (n : Z) : string :=
  digits_fuel (Z.to_nat (Z.log2 n)) n EmptyString.

(** [String(n)] for an integer [n]. *)
Definition String_of_number (n : Z) : string :=
  if n <? 0 then String "-" (digits (- n)) else digits n.

End JS.

(** ** Node's [path] module, POSIX flavour

    The sources call [path.isAbsolute] and [path.join]. The properties below
    are stated for any implementation of the two ([PathModule]); the POSIX
    one is given so that the resolution can be run on concrete paths. *)
Module Path.

Record PathModule := {
  isAbsolute : string → bool;
  join : string → string → string;
}.

Fixpoint split_segments (s : string) (cur : string) : list string :=
  match s with
  | String c s' =>
      if Ascii.eqb c "/" then cur :: split_segments s' EmptyString
      else split_segments s' (cur +:+ String c EmptyString)
  | EmptyString => [cur]
  end.

Fixpoint join_segments (segs : list string) : string :=
  match segs with
  | [] => EmptyString
  | [x] => x
  | x :: rest => x +:+ "/" +:+ join_segments rest
  end.

(** [normalizeString]: drops empty and [.] segments; [..] removes the
    segment before it, or is kept when there is none to remove and the path
    is relative. [acc] holds the segments kept so far, last one first. *)
Fixpoint normalize_segments (allowAboveRoot : bool) (segs acc : list string)
  : list string :=
  match segs with
  | [] => rev acc
  | seg :: rest =>
      if bool_decide (seg = "") || bool_decide (seg = ".") then
        normalize_segments allowAboveRoot rest acc
      else if bool_decide (seg = "..") then
        match acc with
        | last :: acc' =>
            if bool_decide (last = "..")
            then normalize_segments allowAboveRoot rest (seg :: acc)
            else normalize_segments allowAboveRoot rest acc'
        | [] =>
            normalize_segments allowAboveRoot rest
              (if allowAboveRoot then [seg] else [])
        end
      else normalize_segments allowAboveRoot rest (seg :: acc)
  end.

Definition posix_isAbsolute (p : string) : bool :=
  match p with
  | String c _ => Ascii.eqb c "/"
  | EmptyString => false
  end.

Fixpoint ends_with_slash (p : string) : bool :=
  match p with
  | EmptyString => false
  | String c EmptyString => Ascii.eqb c "/"
  | String _ p' => ends_with_slash p'
  end.

Definition posix_normalize (p : string) : string :=
  match p with
  | EmptyString => "."
  | _ =>
      let absolute := posix_isAbsolute p in
      let trailing := ends_with_slash p in
      let body :=
        join_segments
          (normalize_segments (negb absolute) (split_segments p EmptyString) []) in
      match body with
      | EmptyString =>
          if absolute then "/" else if trailing then "./" else "."
      | _ =>
          let body' := if trailing then body +:+ "/" else body in
          if absolute then "/" +:+ body' else body'
      end
  end.

(** [path.join(a, b)]: the non-empty arguments are glued with a slash and
    the result is normalized; with nothing to glue the result is [.]. *)
Definition posix_join (a b : string) : string :=
  match a, b with
  | EmptyString, EmptyString => "."
  | EmptyString, _ => posix_normalize b
  | _, EmptyString => posix_normalize a
  | _, _ => posix_normalize (a +:+ "/" +:+ b)
  end.

Definition posix : PathModule :=
  {| isAbsolute := posix_isAbsolute; join := posix_join |}.

End Path.

(** ** Plugin settings and the host environment *)

(** The fields of [SC_MainSettings] that the modelled code reads. *)
Inductive ExecutionNotificationMode :=
  | NotificationDisabled
  | NotificationQuick
  | NotificationPermanent
  | NotificationIfLong.

#[global] Instance ExecutionNotificationMode_eq_dec :
  EqDecision ExecutionNotificationMode.
Proof. solve_decision. Defined.

Record SC_MainSettings := {
  working_directory : string;
  preview_variables_in_command_palette : bool;
  execution_notification_mode : ExecutionNotificationMode;
}.

(** What a path names on disk, as far as [fs.existsSync] and
    [fs.lstatSync(p).isDirectory()] can tell. *)
Inductive FileKind := Directory | RegularFile.

(** The surroundings of the plugin: the vault location reported by
    [getVaultAbsolutePath], the [path] module in use, the file system, and
    the platform names of [getPlatformName] and [getCurrentPlatformName]. *)
Record Host := {
  vaultAbsolutePath : string;
  path : Path.PathModule;
  fs : gmap string FileKind;
  getPlatformName : string → string;
  currentPlatformId : string;
}.

Definition getCurrentPlatformName (h : Host) : string :=
  getPlatformName h (currentPlatformId h).

Definition existsSync (h : Host) (p : string) : bool :=
  match fs h !! p with
  | Some _ => true
  | None => false
  end.

(** [fs.lstatSync(p).isDirectory()], called on existing paths only. *)
Definition isDirectory (h : Host) (p : string) : bool :=
  match fs h !! p with
  | Some Directory => true
  | _ => false
  end.

(** ** The shell abstraction (abstract class [Shell]) *)
Module Shell.

(** The abstract members of [Shell] that the modelled code calls. A concrete
    shell supplies them; [supportsPathAugmentation] tells whether it defines
    the optional [setEnvironmentVariablePathAugmentation]. *)
Record Shell := {
  getIdentifier : string;
  translateAbsolutePath : string → string;
  translateRelativePath : string → string;
  supportsPathAugmentation : bool;
}.

(** [Shell.getWorkingDirectory()]. *)
Definition getWorkingDirectory (h : Host) (settings : SC_MainSettings)
    (shell : Shell) : string :=
  let workingDirectory := working_directory settings in
  let vaultAbsolutePath := vaultAbsolutePath h in
  if bool_decide (workingDirectory = "") then
    translateAbsolutePath shell vaultAbsolutePath
  else if negb (Path.isAbsolute (path h) workingDirectory) then
    translateAbsolutePath shell
      (Path.join (path h) vaultAbsolutePath workingDirectory)
  else workingDirectory.

(** The resolution that the specification describes: the same three cases,
    each one handed to the shell's translator. *)
Definition getWorkingDirectory_translated (h : Host)
    (settings : SC_MainSettings) (shell : Shell) : string :=
  let workingDirectory := working_directory settings in
  if bool_decide (workingDirectory = "") then
    translateAbsolutePath shell (vaultAbsolutePath h)
  else if negb (Path.isAbsolute (path h) workingDirectory) then
    translateAbsolutePath shell
      (Path.join (path h) (vaultAbsolutePath h) workingDirectory)
  else translateAbsolutePath shell workingDirectory.

(** A shell living in a foreign file-system namespace, in the manner of the
    subsystem example in the documentation of [translateAbsolutePath]: host
    paths are reached below a mount point. Used to run the resolution on
    concrete inputs. *)
Definition mounted_shell : Shell := {|
  getIdentifier := "mounted";
  translateAbsolutePath := fun p => "/mnt/host" +:+ p;
  translateRelativePath := fun p => p;
  supportsPathAugmentation := false;
|}.

End Shell.

(** ** Promises and effects

    A computation of the executor either finishes with a value, throws (an
    asynchronous one: its promise is rejected), or hangs on a promise that is
    never settled. Next to its outcome it yields the calls it made on its
    collaborators, in program order. *)
Module Task.

Inductive Outcome (A : Type) :=
  | Fulfilled (a : A)
  | Rejected (message : string)
  | Pending.
Arguments Fulfilled {A} a.
Arguments Rejected {A} message.
Arguments Pending {A}.

Definition Task (E A : Type) : Type := Outcome A * list E.

Definition ret {E A} (a : A) : Task E A := (Fulfilled a, []).
Definition throw {E A} (message : string) : Task E A := (Rejected message, []).
Definition emit {E} (e : E) : Task E () := (Fulfilled (), [e]).

(** Sequencing, and [promise.then(callback)]: the callback runs only once the
    first computation has finished with a value. *)
Definition bind {E A B} (m : Task E A) (f : A → Task E B) : Task E B :=
  match m with
  | (Fulfilled a, t) => let '(o, t') := f a in (o, t ++ t')
  | (Rejected message, t) => (Rejected message, t)
  | (Pending, t) => (Pending, t)
  end.

(** [try { m } catch (exception) { handler(exception.message) }]. *)
Definition try_catch {E A} (m : Task E A) (handler : string → Task E A)
  : Task E A :=
  match m with
  | (Rejected message, t) => let '(o, t') := handler message in (o, t ++ t')
  | _ => m
  end.

Definition outcome {E A} (m : Task E A) : Outcome A := m.1.
Definition trace {E A} (m : Task E A) : list E := m.2.

End Task.

Notation "'let*' x ':=' m 'in' k" := (Task.bind m (fun x => k))
  (at level 10, x name, m at level 100, k at level 200).
Notation "m '>>' k" := (Task.bind m (fun _ => k))
  (at level 100, k at level 200, right associativity).

(** ** The executor ([ShellCommandExecutor]) and its collaborators *)
Module Executor.
Import Task.

Inductive OutputStream := stdout | stderr.

#[global] Instance OutputStream_eq_dec : EqDecision OutputStream.
Proof. solve_decision. Defined.

(** Output handler codes are the enumerated strings of the settings. *)
Definition OutputHandlerCode := string.

(** An [OutputChannel] instance, told apart by a serial number. *)
Definition OutputChannel := nat.

Inductive OutputHandlingMode := buffered | realtime.

(** A readable stream of the child process: the chunks waiting in its
    buffer and whether it is paused. *)
Record Readable := {
  chunks : list string;
  paused : bool;
}.

(** [stream.read()]: everything buffered, or [null] when there is nothing. *)
Definition read (r : Readable) : option string * Readable :=
  match chunks r with
  | [] => (None, r)
  | cs => (Some (foldr String.append EmptyString cs),
           {| chunks := []; paused := paused r |})
  end.

Record ChildProcess := {
  has_stdin : bool;
  cp_stdout : option Readable;
  cp_stderr : option Readable;
}.

(** What [shell.spawnChildProcess(...)] comes back with. *)
Inductive SpawnOutcome :=
  | SpawnThrows (message : string)
  | SpawnNull
  | Spawned (child_process : ChildProcess).

Record OutputHandlerConfigurations := {
  stdout_handler : OutputHandlerCode;
  stderr_handler : OutputHandlerCode;
}.

#[global] Instance OutputHandlerConfigurations_eq_dec :
  EqDecision OutputHandlerConfigurations.
Proof. solve_decision. Defined.

Definition handler (c : OutputHandlerConfigurations) (s : OutputStream)
  : OutputHandlerCode :=
  match s with
  | stdout => stdout_handler c
  | stderr => stderr_handler c
  end.

(** The parsed contents that [getParsingResults()] gives after a successful
    [processRest()]; optional fields are absent for templates the shell
    command does not define. *)
Record ParsingResults := {
  shellCommandContent : string;
  shellCommandWrapper : option string;
  alias_content : string;
  path_augmentation_content : string;
  stdin_content : option string;
  output_wrapper_stdout_content : option string;
  output_wrapper_stderr_content : option string;
}.

(** A [ShellCommandParsingProcess], by what the executor observes of it: the
    results of [process()] and [processRest()], and the parsing results. *)
Record ShellCommandParsingProcess := {
  process : bool;
  processRest : bool;
  getParsingResults : ParsingResults;
}.

Record ShellCommandParsingResult := {
  unwrappedShellCommandContent : string;
  wrappedShellCommandContent : string;
  alias : string;
  environment_variable_path_augmentation : string;
  stdinContent : option string;
  output_wrapper_stdout : option string;
  output_wrapper_stderr : option string;
  succeeded : bool;
  error_messages : list string;
}.

(** A preaction, by its type and by what the promise of [perform()] does. *)
Record Preaction := {
  preaction_type : string;
  perform : Outcome bool;
}.

(** The members of [TShellCommand] that the executor calls. *)
Record TShellCommand := {
  getId : string;
  getShell : Shell.Shell;
  getAlias : string;
  getAliasOrShellCommand : string;
  confirm_execution : bool;
  getPreactions : list Preaction;
  createParsingProcess : ShellCommandParsingProcess;
  wrapShellCommandContent : string → string → string;
  getOutputHandlers : OutputHandlerConfigurations;
  getOutputHandlingMode : OutputHandlingMode;
  getIgnoreErrorCodes : list Z;
  getNonEmptyPlatformIds : list string;
}.

(** What surrounds one execution: the host, the settings, the answer given
    in the confirmation modal and the behaviour of the spawn call. *)
Record Env := {
  host : Host;
  settings : SC_MainSettings;
  confirmation_modal_promise : Outcome bool;
  spawnChildProcess : string → string → SpawnOutcome;
}.

Inductive Event :=
  | EvProcess
  | EvProcessRest
  | EvDisplayErrorMessages
  | EvConfirmationModalOpen (text : string)
  | EvPreactionPerform (type : string)
  | EvNewError (message : string)
  | EvSetEnvironmentVariablePathAugmentation (augmentation : string)
  | EvSpawnChildProcess (command working_directory : string)
  | EvStdinWrite (content : string)
  | EvStdinEnd
  | EvOnError
  | EvSetEncoding (stream : OutputStream)
  | EvHandleBufferedOutput (outputHandlers : OutputHandlerConfigurations)
  | EvHandleRealtimeOutput (outputHandlers : OutputHandlerConfigurations)
  | EvShowExecutionNotification (mode : ExecutionNotificationMode)
                                (message : string)
  | EvPause (stream : OutputStream)
  | EvResume (stream : OutputStream)
  | EvRead (stream : OutputStream) (content : string)
  | EvHandleRealtime (stream : OutputStream) (channel : OutputChannel)
                     (content : string)
  | EvHandleRealtimeSettled (stream : OutputStream) (content : string)
  | EvEndRealtime (stream : OutputStream) (channel : OutputChannel)
                  (exitCode : option Z).

#[global] Instance Event_eq_dec : EqDecision Event.
Proof. solve_decision. Defined.

Definition newError (message : string) : Task Event () :=
  emit (EvNewError message).

(** [ShellCommandExecutor.getWorkingDirectory(plugin)]: the directory in the
    host's own notation, as the child process receives it. *)
Definition getWorkingDirectory (h : Host) (settings : SC_MainSettings)
  : string :=
  let working_directory := working_directory settings in
  if bool_decide (working_directory = "") then vaultAbsolutePath h
  else if negb (Path.isAbsolute (path h) working_directory) then
    Path.join (path h) (vaultAbsolutePath h) working_directory
  else working_directory.

(** [names.join(" and ")]. *)
Fixpoint join_and (names : list string) : string :=
  match names with
  | [] => ""
  | [n] => n
  | n :: rest => n +:+ " and " +:+ join_and rest
  end.

Definition getErrorMessageForEmptyShellCommand (h : Host)
    (t_shell_command : TShellCommand) : string :=
  let ids := getNonEmptyPlatformIds t_shell_command in
  if (0 <? length ids)%nat then
    let current_platform_name := getCurrentPlatformName h in
    let version_word :=
      if (1 <? length ids)%nat then "versions" else "a version" in
    let other_platform_names := join_and (getPlatformName h <$> ids) in
    "The shell command does not have a version for " +:+ current_platform_name
      +:+ ", it only has " +:+ version_word +:+ " for "
      +:+ other_platform_names +:+ "."
  else "The shell command is empty. :(".

(** Matching of [/spawn\s+ENAMETOOLONG/i]. *)
Definition to_lower (c : ascii) : ascii :=
  let n := nat_of_ascii c in
  if (65 <=? n)%nat && (n <=? 90)%nat then ascii_of_nat (n + 32) else c.

Fixpoint strip_prefix_ci (pattern s : string) : option string :=
  match pattern, s with
  | EmptyString, _ => Some s
  | String p pattern', String c s' =>
      if Ascii.eqb (to_lower p) (to_lower c)
      then strip_prefix_ci pattern' s' else None
  | String _ _, EmptyString => None
  end.

Definition matches_here (s : string) : bool :=
  match strip_prefix_ci "spawn" s with
  | Some (String c rest) =>
      JS.is_white_space c
      && bool_decide (is_Some (strip_prefix_ci "ENAMETOOLONG"
                                 (JS.trim_start rest)))
  | _ => false
  end.

Fixpoint matches_ENAMETOOLONG (message : string) : bool :=
  matches_here message ||
  match message with
  | String _ rest => matches_ENAMETOOLONG rest
  | EmptyString => false
  end.

Definition execution_notification_message (t_shell_command : TShellCommand)
    (shell_command : string) : string :=
  "Executing: " +:+
  (if bool_decide (getAlias t_shell_command = "") then shell_command
   else getAlias t_shell_command).

(** What [executeShellCommand] does with a spawned child process, up to
    the end of the [try] block. *)
Definition hookChildProcess (env : Env) (t_shell_command : TShellCommand)
    (r : ShellCommandParsingResult)
    (outputHandlers : OutputHandlerConfigurations)
    (child_process : ChildProcess) : Task Event () :=
  (match stdinContent r with
   | Some content =>
       if has_stdin child_process
       then emit (EvStdinWrite content) >> emit EvStdinEnd
       else throw "Shell command execution process does not have a standard input stream (stdin)."
   | None => ret ()
   end) >>
  emit EvOnError >>
  (match cp_stdout child_process, cp_stderr child_process with
   | Some _, Some _ => ret ()
   | _, _ => throw "Child process's stdout and/or stderr stream is null."
   end) >>
  emit (EvSetEncoding stdout) >>
  emit (EvSetEncoding stderr) >>
  (match getOutputHandlingMode t_shell_command with
   | buffered => emit (EvHandleBufferedOutput outputHandlers)
   | realtime => emit (EvHandleRealtimeOutput outputHandlers)
   end) >>
  (match execution_notification_mode (settings env) with
   | NotificationDisabled => ret ()
   | mode =>
       emit (EvShowExecutionNotification mode
               (execution_notification_message t_shell_command
                  (unwrappedShellCommandContent r)))
   end).

(** The output handlers of one execution: those of the shell command, or
    the overriding channel on both streams when one is given. *)
Definition chooseOutputHandlers (t_shell_command : TShellCommand)
    (overriding_output_channel : option OutputHandlerCode)
  : OutputHandlerConfigurations :=
  match overriding_output_channel with
  | Some code =>
      if bool_decide (code = "") then getOutputHandlers t_shell_command
      else {| stdout_handler := code; stderr_handler := code |}
  | None => getOutputHandlers t_shell_command
  end.

Definition executeShellCommand (env : Env) (t_shell_command : TShellCommand)
    (r : ShellCommandParsingResult)
    (overriding_output_channel : option OutputHandlerCode) : Task Event () :=
  let shell := getShell t_shell_command in
  let working_directory := getWorkingDirectory (host env) (settings env) in
  let outputHandlers :=
    chooseOutputHandlers t_shell_command overriding_output_channel in
  if (String.length (JS.trim (unwrappedShellCommandContent r)) =? 0)%nat then
    newError (getErrorMessageForEmptyShellCommand (host env) t_shell_command)
  else if negb (existsSync (host env) working_directory) then
    newError ("Working directory does not exist: " +:+ working_directory)
  else if negb (isDirectory (host env) working_directory) then
    newError ("Working directory exists but is not a folder: "
              +:+ working_directory)
  else
    (if (0 <? String.length (environment_variable_path_augmentation r))%nat
        && Shell.supportsPathAugmentation shell
     then emit (EvSetEnvironmentVariablePathAugmentation
                  (environment_variable_path_augmentation r))
     else ret ()) >>
    let wrappedShellCommandContent := wrappedShellCommandContent r in
    try_catch
      (emit (EvSpawnChildProcess wrappedShellCommandContent working_directory) >>
       match spawnChildProcess env wrappedShellCommandContent working_directory with
       | SpawnThrows message => throw message
       | SpawnNull => ret ()
       | Spawned child_process =>
           hookChildProcess env t_shell_command r outputHandlers child_process
       end)
      (fun message =>
         if matches_ENAMETOOLONG message then
           newError ("Shell command execution failed because it's too long: "
                     +:+ JS.String_of_number
                           (Z.of_nat (String.length wrappedShellCommandContent))
                     +:+ " characters. (Unfortunately the max limit is unknown).")
         else throw message).

(** The confirmation step of the pipeline: the modal is opened, and the
    step's promise is resolved from inside the handler of the modal's
    promise. *)
Definition askConfirmation (env : Env) (t_shell_command : TShellCommand)
  : Task Event bool :=
  emit (EvConfirmationModalOpen (getAliasOrShellCommand t_shell_command)) >>
  match confirmation_modal_promise env with
  | Fulfilled execution_confirmed =>
      if execution_confirmed then
        if execution_confirmed then ret true else ret false
      else (Pending, [])
  | Rejected _ => (Pending, [])
  | Pending => (Pending, [])
  end.

Definition performPreaction (preaction : Preaction) : Task Event bool :=
  emit (EvPreactionPerform (preaction_type preaction)) >>
  (perform preaction, []).

(** [preactions.forEach(...)]: every preaction is chained behind the
    pipeline with [then], the callback taking no argument. *)
Definition chain (pipeline : Task Event bool) (preactions : list Preaction)
  : Task Event bool :=
  foldl (fun pipeline preaction => pipeline >> performPreaction preaction)
        pipeline preactions.

(** [preaction_pipeline]: starts resolved to [true]; the confirmation, when
    configured, and then the preactions are chained behind it. *)
Definition preaction_pipeline (env : Env) (t_shell_command : TShellCommand)
  : Task Event bool :=
  let pipeline := ret true in
  let pipeline :=
    if confirm_execution t_shell_command
    then pipeline >> askConfirmation env t_shell_command
    else pipeline in
  chain pipeline (getPreactions t_shell_command).

Definition makeShellCommandParsingResult (t_shell_command : TShellCommand)
    (parsing_results : ParsingResults) : ShellCommandParsingResult :=
  let unwrappedShellCommandContent := shellCommandContent parsing_results in
  {| unwrappedShellCommandContent := unwrappedShellCommandContent;
     wrappedShellCommandContent :=
       match shellCommandWrapper parsing_results with
       | Some wrapper =>
           if bool_decide (wrapper = "") then unwrappedShellCommandContent
           else wrapShellCommandContent t_shell_command
                  unwrappedShellCommandContent wrapper
       | None => unwrappedShellCommandContent
       end;
     alias := alias_content parsing_results;
     environment_variable_path_augmentation :=
       path_augmentation_content parsing_results;
     stdinContent := stdin_content parsing_results;
     output_wrapper_stdout := output_wrapper_stdout_content parsing_results;
     output_wrapper_stderr := output_wrapper_stderr_content parsing_results;
     succeeded := true;
     error_messages := [] |}.

(** What follows the pipeline: the last [then] of
    [doPreactionsAndExecuteShellCommand]. *)
Definition afterPreactions (env : Env) (t_shell_command : TShellCommand)
    (parsing_process : ShellCommandParsingProcess)
    (overriding_output_channel : option OutputHandlerCode)
    (can_execute : bool) : Task Event () :=
  if can_execute then
    emit EvProcessRest >>
    if processRest parsing_process then
      executeShellCommand env t_shell_command
        (makeShellCommandParsingResult t_shell_command
           (getParsingResults parsing_process))
        overriding_output_channel
    else emit EvDisplayErrorMessages
  else ret ().

Definition doPreactionsAndExecuteShellCommand (env : Env)
    (t_shell_command : TShellCommand)
    (parsing_process : option ShellCommandParsingProcess)
    (overriding_output_channel : option OutputHandlerCode) : Task Event () :=
  let start : Task Event (option ShellCommandParsingProcess) :=
    match parsing_process with
    | None =>
        let parsing_process := createParsingProcess t_shell_command in
        emit EvProcess >>
        if negb (process parsing_process)
        then emit EvDisplayErrorMessages >> ret None
        else ret (Some parsing_process)
    | Some parsing_process => ret (Some parsing_process)
    end in
  let* started := start in
  match started with
  | None => ret ()
  | Some parsing_process =>
      let* can_execute := preaction_pipeline env t_shell_command in
      afterPreactions env t_shell_command parsing_process
        overriding_output_channel can_execute
  end.

(** *** Buffered output *)

(** The arguments that the exit handler of buffered mode hands to
    [handleBufferedOutput] of the output channel functions. *)
Record BufferedDispatch := {
  dispatched_stdout : string;
  dispatched_stderr : string;
  dispatched_exitCode : option Z;
  dispatched_outputChannels : OutputHandlerConfigurations;
}.

(** The ["exit"] handler that [handleBufferedOutput] installs. *)
Definition onExitBuffered (t_shell_command : TShellCommand)
    (outputChannels : OutputHandlerConfigurations)
    (child_process : ChildProcess) (exitCode : option Z)
  : Outcome BufferedDispatch :=
  match cp_stdout child_process, cp_stderr child_process with
  | Some out, Some err =>
      let stdout_content := default "" (read out).1 in
      let stderr_content := default "" (read err).1 in
      let ignored := getIgnoreErrorCodes t_shell_command in
      if match exitCode with None => true | Some code => 0 <? code end then
        if match exitCode with
           | Some code => bool_decide (code ∈ ignored)
           | None => false
           end
        then
          Fulfilled {| dispatched_stdout := stdout_content;
                       dispatched_stderr := "";
                       dispatched_exitCode := None;
                       dispatched_outputChannels := outputChannels |}
        else
          Fulfilled {| dispatched_stdout := stdout_content;
                       dispatched_stderr := stderr_content;
                       dispatched_exitCode := exitCode;
                       dispatched_outputChannels := outputChannels |}
      else
        let stderr_content :=
          if (0 <? String.length stderr_content)%nat then
            if bool_decide (0 ∈ ignored) then "" else stderr_content
          else stderr_content in
        Fulfilled {| dispatched_stdout := stdout_content;
                     dispatched_stderr := stderr_content;
                     dispatched_exitCode := Some 0;
                     dispatched_outputChannels := outputChannels |}
  | _, _ => Rejected "Child process's stdout and/or stderr stream is null."
  end.

(** *** Realtime output *)

(** The object that [startRealtimeOutputHandling] returns: per stream name
    that it has as an own property, the channel stored there, if any. *)
Definition OutputChannels := list (OutputStream * option OutputChannel).

Fixpoint channelOf (outputChannels : OutputChannels) (name : OutputStream)
  : option OutputChannel :=
  match outputChannels with
  | [] => None
  | (n, channel) :: rest =>
      if decide (n = name) then channel else channelOf rest name
  end.

(** The loop of the ["exit"] handler of realtime mode, over the remaining
    stream names. *)
Fixpoint endRealtimeLoop (outputHandlerConfigurations : OutputHandlerConfigurations)
    (exitCode : option Z) (names : OutputChannels)
    (alreadyCalledChannelCodes : list OutputHandlerCode)
  : Task Event (list OutputHandlerCode) :=
  match names with
  | [] => ret alreadyCalledChannelCodes
  | (outputStreamName, outputChannel) :: rest =>
      match outputChannel with
      | None => throw "Output channel is undefined."
      | Some channel =>
          let outputChannelCode :=
            handler outputHandlerConfigurations outputStreamName in
          if bool_decide (outputChannelCode ∈ alreadyCalledChannelCodes) then
            endRealtimeLoop outputHandlerConfigurations exitCode rest
              alreadyCalledChannelCodes
          else
            emit (EvEndRealtime outputStreamName channel exitCode) >>
            endRealtimeLoop outputHandlerConfigurations exitCode rest
              (alreadyCalledChannelCodes ++ [outputChannelCode])
      end
  end.

Definition onExitRealtime (outputHandlerConfigurations : OutputHandlerConfigurations)
    (outputChannels : OutputChannels) (exitCode : option Z)
  : Task Event (list OutputHandlerCode) :=
  endRealtimeLoop outputHandlerConfigurations exitCode outputChannels [].

(** The child process while its output is handled in realtime: the two
    streams (both present, as [executeShellCommand] has checked), the
    [handleRealtime] calls that have not settled yet, and what has been done
    so far. *)
Record RealtimeState := {
  rt_stdout : Readable;
  rt_stderr : Readable;
  rt_in_progress : list (OutputStream * string);
  rt_trace : list Event;
}.

Definition streamOf (st : RealtimeState) (name : OutputStream) : Readable :=
  match name with
  | stdout => rt_stdout st
  | stderr => rt_stderr st
  end.

Definition setStream (st : RealtimeState) (name : OutputStream)
    (r : Readable) : RealtimeState :=
  match name with
  | stdout => {| rt_stdout := r; rt_stderr := rt_stderr st;
                 rt_in_progress := rt_in_progress st; rt_trace := rt_trace st |}
  | stderr => {| rt_stdout := rt_stdout st; rt_stderr := r;
                 rt_in_progress := rt_in_progress st; rt_trace := rt_trace st |}
  end.

Definition setPaused (b : bool) (r : Readable) : Readable :=
  {| chunks := chunks r; paused := b |}.

(** [childProcess.stdout.pause(); childProcess.stderr.pause();] and the
    matching pair of [resume()] calls. *)
Definition pauseBoth (st : RealtimeState) : RealtimeState :=
  {| rt_stdout := setPaused true (rt_stdout st);
     rt_stderr := setPaused true (rt_stderr st);
     rt_in_progress := rt_in_progress st;
     rt_trace := rt_trace st ++ [EvPause stdout; EvPause stderr] |}.

Definition resumeBoth (st : RealtimeState) : RealtimeState :=
  {| rt_stdout := setPaused false (rt_stdout st);
     rt_stderr := setPaused false (rt_stderr st);
     rt_in_progress := rt_in_progress st;
     rt_trace := rt_trace st ++ [EvResume stdout; EvResume stderr] |}.

Definition recordEvents (events : list Event) (st : RealtimeState) : RealtimeState :=
  {| rt_stdout := rt_stdout st; rt_stderr := rt_stderr st;
     rt_in_progress := rt_in_progress st;
     rt_trace := rt_trace st ++ events |}.

Definition setInProgress (l : list (OutputStream * string))
    (st : RealtimeState) : RealtimeState :=
  {| rt_stdout := rt_stdout st; rt_stderr := rt_stderr st;
     rt_in_progress := l; rt_trace := rt_trace st |}.

(** [handleNewOutputContent] up to its [await]: both streams are paused, the
    chunk is read and handed to the channel of the stream. The outcome is
    [Pending] while the channel is at work. *)
Definition handleNewOutputContent (outputChannels : OutputChannels)
    (outputStreamName : OutputStream) (st : RealtimeState)
  : Outcome () * RealtimeState :=
  let st := pauseBoth st in
  let '(content, stream) := read (streamOf st outputStreamName) in
  let outputContent := default "" content in
  let st := recordEvents [EvRead outputStreamName outputContent]
              (setStream st outputStreamName stream) in
  match channelOf outputChannels outputStreamName with
  | None => (Rejected "Output channel is undefined.", st)
  | Some outputChannel =>
      (Pending,
       recordEvents [EvHandleRealtime outputStreamName outputChannel outputContent]
         (setInProgress (rt_in_progress st ++ [(outputStreamName, outputContent)])
            st))
  end.

Fixpoint removeFirst (x : OutputStream * string)
    (l : list (OutputStream * string)) : list (OutputStream * string) :=
  match l with
  | [] => []
  | y :: l' => if decide (x = y) then l' else y :: removeFirst x l'
  end.

(** The rest of [handleNewOutputContent], once [handleRealtime] has
    settled: both streams are resumed. *)
Definition handleNewOutputContentResume (outputStreamName : OutputStream)
    (outputContent : string) (st : RealtimeState) : RealtimeState :=
  resumeBoth
    (recordEvents [EvHandleRealtimeSettled outputStreamName outputContent]
       (setInProgress
          (removeFirst (outputStreamName, outputContent) (rt_in_progress st))
          st)).

Definition pushChunk (name : OutputStream) (chunk : string)
    (st : RealtimeState) : RealtimeState :=
  let r := streamOf st name in
  setStream st name {| chunks := chunks r ++ [chunk]; paused := paused r |}.

(** The event loop around the handler. Data arrives from the child process
    at any time; a stream raises ["readable"] for a registered listener only
    while it is not paused, which is the effect of [pause()] that the handler
    counts on; an awaited [handleRealtime] settles at any later time. *)
Inductive step (outputChannels : OutputChannels)
  : RealtimeState → RealtimeState → Prop :=
  | step_data name chunk st :
      step outputChannels st (pushChunk name chunk st)
  | step_readable name st :
      name ∈ outputChannels.*1 →
      paused (streamOf st name) = false →
      step outputChannels st (handleNewOutputContent outputChannels name st).2
  | step_settled name content st :
      (name, content) ∈ rt_in_progress st →
      step outputChannels st (handleNewOutputContentResume name content st).

Definition initialRealtimeState : RealtimeState :=
  {| rt_stdout := {| chunks := []; paused := false |};
     rt_stderr := {| chunks := []; paused := false |};
     rt_in_progress := [];
     rt_trace := [] |}.

Definition reachable (outputChannels : OutputChannels) (st : RealtimeState)
  : Prop :=
  rtc (step outputChannels) initialRealtimeState st.

(** One chunk handled from start to end. *)
Definition chunkDispatched (name : OutputStream) (channel : OutputChannel)
    (content : string) : list Event :=
  [EvPause stdout; EvPause stderr; EvRead name content;
   EvHandleRealtime name channel content].

Definition chunkHandled (h : OutputStream * OutputChannel * string)
  : list Event :=
  let '(name, channel, content) := h in
  chunkDispatched name channel content ++
  [EvHandleRealtimeSettled name content; EvResume stdout; EvResume stderr].

End Executor.

(** ** The plugin ([SC_Plugin]): command palette and identifiers *)
Module Plugin.
Import Executor.

(** A shell command as the command palette sees it. *)
Record PaletteCommand := {
  t_shell_command : TShellCommand;
  getShellCommand : string;
  canShowInCommandPalette : bool;
}.

(** The plugin's mutable fields that the palette callback touches. A key of
    [cached_parsing_processes] may hold [undefined], here [None]. *)
Record SC_Plugin := {
  plugin_settings : SC_MainSettings;
  cached_parsing_processes : gmap string (option ShellCommandParsingProcess);
}.

Inductive PaletteEvent :=
  | EvRenameObsidianCommand (id shell_command alias : string)
  | EvPaletteProcess (id : string)
  | EvPaletteDisplayErrorMessages (id : string)
  | EvDoPreactionsAndExecuteShellCommand
      (id : string) (parsing_process : ShellCommandParsingProcess)
      (from_cache : bool).

Definition setCache (cache : gmap string (option ShellCommandParsingProcess))
    (plugin : SC_Plugin) : SC_Plugin :=
  {| plugin_settings := plugin_settings plugin;
     cached_parsing_processes := cache |}.

(** [this.cached_parsing_processes[id]]: [undefined] for a missing key as
    well as for a key that holds [undefined]. *)
Definition cachedParsingProcess (plugin : SC_Plugin) (id : string)
  : option ShellCommandParsingProcess :=
  cached_parsing_processes plugin !! id ≫= (fun v => v).

(** The function [executor] that [registerShellCommand] defines. *)
Definition executor (c : PaletteCommand)
    (parsing_process : option ShellCommandParsingProcess)
  : list PaletteEvent :=
  let id := getId (t_shell_command c) in
  let from_cache := bool_decide (is_Some parsing_process) in
  let parsing_process :=
    default (createParsingProcess (t_shell_command c)) parsing_process in
  EvPaletteProcess id ::
  (if process parsing_process
   then [EvDoPreactionsAndExecuteShellCommand id parsing_process from_cache]
   else [EvPaletteDisplayErrorMessages id]).

(** The [checkCallback] of the Obsidian command that [registerShellCommand]
    registers; the result is the returned value, if any. *)
Definition checkCallback (c : PaletteCommand)
    (is_opening_command_palette : bool) (plugin : SC_Plugin)
  : option bool * SC_Plugin * list PaletteEvent :=
  let tsc := t_shell_command c in
  let id := getId tsc in
  if is_opening_command_palette then
    if negb (canShowInCommandPalette c) then (Some false, plugin, [])
    else
      let unparsed :=
        (Some true,
         setCache (<[id := None]> (cached_parsing_processes plugin)) plugin,
         [EvRenameObsidianCommand id (getShellCommand c) (getAlias tsc)]) in
      if preview_variables_in_command_palette (plugin_settings plugin) then
        let parsing_process := createParsingProcess tsc in
        if process parsing_process then
          let parsing_result := getParsingResults parsing_process in
          (Some true,
           setCache (<[id := Some parsing_process]>
                       (cached_parsing_processes plugin)) plugin,
           [EvPaletteProcess id;
            EvRenameObsidianCommand id (shellCommandContent parsing_result)
              (alias_content parsing_result)])
        else
          let '(result, plugin', events) := unparsed in
          (result, plugin', EvPaletteProcess id :: events)
      else unparsed
  else
    (None, setCache ∅ plugin, executor c (cachedParsingProcess plugin id)).

(** The loop of [generateNewShellCommandID] over the own property names of
    the shell command container. [parseInt] of a name that is not a number
    is [NaN], and every comparison with [NaN] is false. *)
Definition nextId (new_id : Z) (existing_id_name : string) : Z :=
  match JS.parseInt existing_id_name with
  | Some existing_id =>
      if new_id <=? existing_id then existing_id + 1 else new_id
  | None => new_id
  end.

(** The loop body on a name that is a number. *)
Definition raise (new_id existing_id : Z) : Z :=
  if new_id <=? existing_id then existing_id + 1 else new_id.

Definition generateNewShellCommandID_from (existing_ids : list string)
  : string :=
  JS.String_of_number (foldl nextId 0 existing_ids).

(** [generateNewShellCommandID()], over the container of shell commands. *)
Definition generateNewShellCommandID {A} (t_shell_commands : gmap string A)
  : string :=
  generateNewShellCommandID_from (map_to_list t_shell_commands).*1.

(** The identifier that the documentation of [generateNewShellCommandID]
    promises: ["0"] without shell commands, else the largest identifier plus
    one. Names that are not numbers do not take part in the maximum; when
    there are names and none is a number, nothing is promised. *)
Definition maxId (ids : list Z) : option Z :=
  match ids with
  | [] => None
  | id :: rest => Some (foldr Z.max id rest)
  end.

Definition documentedNewShellCommandID (existing_ids : list string)
  : option string :=
  match existing_ids with
  | [] => Some "0"
  | _ =>
      (fun m => JS.String_of_number (m + 1))
        <$> maxId (omap JS.parseInt existing_ids)
  end.

(** [generateObsidianCommandId(shell_command_id)]. *)
Definition generateObsidianCommandId (shell_command_id : string) : string :=
  "shell-command-" +:+ shell_command_id.

(** The containers that hold the shell commands: [settings.shell_commands],
    [t_shell_commands], where a [TShellCommand] is told by its identifier and
    its configuration, and [obsidian_commands], where a registered command
    is told by its Obsidian identifier. *)
Record Containers (Configuration : Type) := {
  shell_commands : gmap string Configuration;
  t_shell_commands : gmap string (string * Configuration);
  obsidian_commands : gmap string string;
}.
Arguments shell_commands {Configuration} _.
Arguments t_shell_commands {Configuration} _.
Arguments obsidian_commands {Configuration} _.

(** [loadTShellCommands()]: one [TShellCommand] per configuration. *)
Definition loadTShellCommands {Configuration} (st : Containers Configuration)
  : Containers Configuration :=
  {| shell_commands := shell_commands st;
     t_shell_commands :=
       map_imap (fun shell_command_id configuration =>
                   Some (shell_command_id, configuration))
                (shell_commands st);
     obsidian_commands := obsidian_commands st |}.

(** [newTShellCommand()], for the configuration that
    [newShellCommandConfiguration()] makes and the answer of
    [canAddToCommandPalette()] on it. The result is the new [TShellCommand]
    and the containers as they are left. *)
Definition newTShellCommand {Configuration}
    (newShellCommandConfiguration : Configuration)
    (canAddToCommandPalette : Configuration → bool)
    (st : Containers Configuration)
  : (string * Configuration) * Containers Configuration :=
  let shell_command_id := generateNewShellCommandID (t_shell_commands st) in
  let shell_command_configuration := newShellCommandConfiguration in
  let t_shell_command := (shell_command_id, shell_command_configuration) in
  (t_shell_command,
   {| shell_commands :=
        <[shell_command_id := shell_command_configuration]> (shell_commands st);
      t_shell_commands :=
        <[shell_command_id := t_shell_command]> (t_shell_commands st);
      obsidian_commands :=
        if canAddToCommandPalette shell_command_configuration
        then <[shell_command_id := generateObsidianCommandId shell_command_id]>
               (obsidian_commands st)
        else obsidian_commands st |}).

End Plugin.

(** ** The first version of the plugin ([ShellCommandsPlugin], main.ts) *)
Module LegacyPlugin.

Record ShellCommandConfiguration := {
  shell_command : string;
  alias : string;
}.

Record ShellCommandsPlugin := {
  preview_variables : bool;
  preparsed_shell_command_configurations : gmap string ShellCommandConfiguration;
}.

Inductive LegacyEvent :=
  | EvRename (command_id name : string)
  | EvExecuteShellCommand (shell_command : string).

Definition generateObsidianCommandName (c : ShellCommandConfiguration)
  : string :=
  "Execute: " +:+
  (if bool_decide (alias c = "") then shell_command c else alias c).

Definition setPreparsed (m : gmap string ShellCommandConfiguration)
    (plugin : ShellCommandsPlugin) : ShellCommandsPlugin :=
  {| preview_variables := preview_variables plugin;
     preparsed_shell_command_configurations := m |}.

(** The [checkCallback] registered by [registerShellCommand].
    [parseShellCommandVariables] gives [null], here [None], when a variable
    cannot be parsed. *)
Definition checkCallback (parseShellCommandVariables : string → option string)
    (command_id : string) (configuration : ShellCommandConfiguration)
    (is_opening_command_palette : bool) (plugin : ShellCommandsPlugin)
  : option bool * ShellCommandsPlugin * list LegacyEvent :=
  if is_opening_command_palette then
    if preview_variables plugin then
      match parseShellCommandVariables (shell_command configuration) with
      | None => (Some true, plugin, [])
      | Some parsed_shell_command =>
          match parseShellCommandVariables (alias configuration) with
          | None => (Some true, plugin, [])
          | Some parsed_alias =>
              let preparsed :=
                {| shell_command := parsed_shell_command;
                   alias := parsed_alias |} in
              (Some true,
               setPreparsed
                 (<[command_id := preparsed]>
                    (preparsed_shell_command_configurations plugin)) plugin,
               [EvRename command_id
                  ("Shell commands: " +:+ generateObsidianCommandName preparsed)])
          end
      end
    else (Some true, plugin, [])
  else
    (None, setPreparsed ∅ plugin,
     match preparsed_shell_command_configurations plugin !! command_id with
     | None =>
         match parseShellCommandVariables (shell_command configuration) with
         | None => []
         | Some parsed_shell_command => [EvExecuteShellCommand parsed_shell_command]
         end
     | Some preparsed => [EvExecuteShellCommand (shell_command preparsed)]
     end).

(** What the "APPLY DELETIONS" button of the settings tab works on: the
    shell commands of the settings, the commands registered in the palette,
    and the counter of deletions. *)
Record Deletions := {
  commands : gmap string ShellCommandConfiguration;
  registered : gmap string string;
  count_deletions : nat;
}.

(** A command is deleted when its text field is cleared, unless it is the
    field of a command that does not exist yet. *)
Definition deletable (command_id : string)
    (configuration : ShellCommandConfiguration) : bool :=
  (String.length (shell_command configuration) =? 0)%nat
  && negb (bool_decide ("new" = command_id)).

(** The body of the loop over the shell commands. The loop visits the names
    that the settings hold and deletes none but the one it visits, so the
    name it visits is always present. *)
Definition deleteIfCleared (st : Deletions) (command_id : string) : Deletions :=
  match commands st !! command_id with
  | Some configuration =>
      if deletable command_id configuration then
        {| commands := delete command_id (commands st);
           registered := delete command_id (registered st);
           count_deletions := S (count_deletions st) |}
      else st
  | None => st
  end.

(** The click handler of "APPLY DELETIONS", for the order in which the loop
    enumerates the names of the shell commands: the containers as they are
    left, and the notice that is shown. *)
Definition applyDeletions_from (names : list string)
    (shell_commands : gmap string ShellCommandConfiguration)
    (obsidian_commands : gmap string string) : Deletions * string :=
  let st :=
    foldl deleteIfCleared
      {| commands := shell_commands; registered := obsidian_commands;
         count_deletions := 0 |}
      names in
  (st,
   if (count_deletions st =? 0)%nat then "Nothing to delete :)"
   else "Deleted " +:+ JS.String_of_number (Z.of_nat (count_deletions st))
        +:+ " shell command(s)!").

Definition applyDeletions
    (shell_commands : gmap string ShellCommandConfiguration)
    (obsidian_commands : gmap string string) : Deletions * string :=
  applyDeletions_from (map_to_list shell_commands).*1
    shell_commands obsidian_commands.

(** The change handler of the "Error message duration" field, as a function
    of the text typed and of the duration in the settings. *)
Definition changeErrorMessageDuration (duration_string : string)
    (error_message_duration : Z) : Z :=
  match JS.parseInt duration_string with
  | Some duration =>
      if (1 <=? duration) && (duration <=? 180) then duration
      else error_message_duration
  | None => error_message_duration
  end.

End LegacyPlugin.

(** ** Prompt fields ([PromptField], [PromptField_Text]) *)
Module PromptField.

Record ParsingResult := {
  original_content : string;
  parsed_content : option string;
  succeeded : bool;
  error_messages : list string;
  count_parsed_variables : nat;
}.

Record PromptFieldConfiguration := {
  label : string;
  description : string;
  default_value : string;
  target_variable_id : string;
  required : bool;
}.

(** A text prompt field: its configuration, the text held by its text
    component, the description of its preview element, its private fields,
    and how many times the change callback has been called. *)
Record PromptField := {
  configuration : PromptFieldConfiguration;
  text_component_value : string;
  preview_setting_desc : string;
  parsed_value : option string;
  parsing_errors : list string;
  has_on_change_callback : bool;
  on_change_calls : nat;
}.

Section Parsing.

(** [parseVariables] for the plugin, shell, shell command and event at
    hand, as a function of the content to parse. *)
Variable parseVariables : string → ParsingResult.

Definition getValue (f : PromptField) : string := text_component_value f.

(** [setValue(value)] of the text field. With [parsed_content as string]
    the argument may be [null], which a text input shows as no text. *)
Definition setValue (value : option string) (f : PromptField) : PromptField :=
  {| configuration := configuration f;
     text_component_value := default "" value;
     preview_setting_desc := preview_setting_desc f;
     parsed_value := parsed_value f;
     parsing_errors := parsing_errors f;
     has_on_change_callback := has_on_change_callback f;
     on_change_calls := on_change_calls f |}.

Definition valueHasChanged (f : PromptField) : PromptField :=
  let parsing_result := parseVariables (getValue f) in
  let '(parsed_value, preview, parsing_errors) :=
    if negb (succeeded parsing_result) then
      (None,
       match error_messages parsing_result with
       | first :: _ => first
       | [] => original_content parsing_result
       end,
       error_messages parsing_result)
    else
      (parsed_content parsing_result,
       default "" (parsed_content parsing_result),
       []) in
  let preview :=
    if (count_parsed_variables parsing_result =? 0)%nat then "" else preview in
  {| configuration := configuration f;
     text_component_value := text_component_value f;
     preview_setting_desc := preview;
     parsed_value := parsed_value;
     parsing_errors := parsing_errors;
     has_on_change_callback := has_on_change_callback f;
     on_change_calls :=
       if has_on_change_callback f then S (on_change_calls f)
       else on_change_calls f |}.

Definition applyDefaultValue (f : PromptField) : PromptField :=
  let default_value := default_value (configuration f) in
  let parsing_result := parseVariables default_value in
  let f :=
    if negb (succeeded parsing_result)
    then setValue (Some default_value) f
    else setValue (parsed_content parsing_result) f in
  valueHasChanged f.

Definition isFilled (f : PromptField) : bool :=
  (0 <? String.length (getValue f))%nat.

Definition validate (f : PromptField) : bool :=
  if negb (required (configuration f)) then true else isFilled f.

End Parsing.

Definition getTitle (f : PromptField) : string :=
  if bool_decide (label (configuration f) = "") then "Unlabelled field"
  else label (configuration f).

Definition getParsedValue (f : PromptField) : option string := parsed_value f.

(** [this.parsed_value ?? this.getValue()] *)
Definition getParsedOrRawValue (f : PromptField) : string :=
  default (getValue f) (parsed_value f).

Definition getParsingErrors (f : PromptField) : list string := parsing_errors f.

(** A parsing result as [parseVariables] builds it: on success the parsed
    content is present. *)
Definition wellFormed (r : ParsingResult) : Prop :=
  succeeded r = true → is_Some (parsed_content r).

End PromptField.

(** ** Notions used to state the properties *)
Module Notions.
Import Executor.

(** [needle] occurs somewhere in [text]. *)
Definition occursIn (needle text : string) : Prop :=
  ∃ before after, text = before +:+ needle +:+ after.

(** A trace in which a child process is asked for. *)
Definition spawns (t : list Event) : Prop :=
  ∃ command working_directory,
    EvSpawnChildProcess command working_directory ∈ t.

(** A trace in which an error is shown to the user, by [newError] or by
    [displayErrorMessages]. *)
Definition showsError (t : list Event) : Prop :=
  EvDisplayErrorMessages ∈ t ∨ ∃ message, EvNewError message ∈ t.

(** The events of the pipeline itself, before [executeShellCommand]. *)
Definition pipelineEvent (e : Event) : Prop :=
  match e with
  | EvProcess | EvProcessRest | EvDisplayErrorMessages
  | EvConfirmationModalOpen _ | EvPreactionPerform _ => True
  | _ => False
  end.

(** How many [endRealtime] calls in a trace were made for a stream whose
    handler code is [code]. *)
Definition endsRealtimeFor (configurations : OutputHandlerConfigurations)
    (code : OutputHandlerCode) (e : Event) : bool :=
  match e with
  | EvEndRealtime name _ _ => bool_decide (handler configurations name = code)
  | _ => false
  end.

Fixpoint endRealtimeCalls (configurations : OutputHandlerConfigurations)
    (code : OutputHandlerCode) (t : list Event) : nat :=
  match t with
  | [] => 0
  | e :: t' =>
      ((if endsRealtimeFor configurations code e then 1 else 0)
       + endRealtimeCalls configurations code t')%nat
  end.

Definition bothPaused (st : RealtimeState) : Prop :=
  paused (rt_stdout st) = true ∧ paused (rt_stderr st) = true.

(** What has been done so far is a sequence of chunks, each one handled
    from the pausing of the streams to their resumption, followed by at most
    one chunk whose handling has begun: either it is with its channel, or
    the handler has thrown because the stream has no channel. While a chunk
    is with its channel, it is the only one, and both streams are paused. *)
Definition oneChunkAtATime (outputChannels : OutputChannels)
    (st : RealtimeState) : Prop :=
  ∃ handled : list (OutputStream * OutputChannel * string),
    let done := concat (chunkHandled <$> handled) in
    (rt_in_progress st = [] ∧ rt_trace st = done)
    ∨ (∃ name channel content,
         rt_in_progress st = [(name, content)] ∧ bothPaused st
         ∧ channelOf outputChannels name = Some channel
         ∧ rt_trace st = done ++ chunkDispatched name channel content)
    ∨ (∃ name content,
         rt_in_progress st = [] ∧ bothPaused st
         ∧ channelOf outputChannels name = None
         ∧ rt_trace st
           = done ++ [EvPause stdout; EvPause stderr; EvRead name content]).

(** The events with which a run starts, before any preaction: the first
    parsing phase, its error display, and the confirmation modal. *)
Definition startEvent (e : Event) : Prop :=
  match e with
  | EvProcess | EvDisplayErrorMessages | EvConfirmationModalOpen _ => True
  | _ => False
  end.

(** The events of [executeShellCommand]. *)
Definition executionEvent (e : Event) : Prop :=
  match e with
  | EvNewError _ | EvSetEnvironmentVariablePathAugmentation _
  | EvSpawnChildProcess _ _ | EvStdinWrite _ | EvStdinEnd | EvOnError
  | EvSetEncoding _ | EvHandleBufferedOutput _ | EvHandleRealtimeOutput _
  | EvShowExecutionNotification _ _ => True
  | _ => False
  end.

(** How many times a trace asks for a child process. *)
Definition isSpawn (e : Event) : bool :=
  match e with
  | EvSpawnChildProcess _ _ => true
  | _ => false
  end.

Definition spawnCount (t : list Event) : nat :=
  length (List.filter isSpawn t).

(** What the handlers have read from a stream so far, in order. *)
Fixpoint readSoFar (name : OutputStream) (t : list Event) : string :=
  match t with
  | [] => ""
  | EvRead n content :: t' =>
      if decide (n = name) then content +:+ readSoFar name t'
      else readSoFar name t'
  | _ :: t' => readSoFar name t'
  end.

(** Everything a stream has carried: what has been read from it, followed
    by what still waits in its buffer. *)
Definition carried (st : RealtimeState) (name : OutputStream) : string :=
  readSoFar name (rt_trace st)
  +:+ foldr String.append "" (chunks (streamOf st name)).

End Notions.

(** ** Sample data, for running the definitions *)
Module Sample.

(** A vault in a POSIX home directory. *)
Definition posix_host : Host := {|
  vaultAbsolutePath := "/home/user/vault";
  path := Path.posix;
  fs := {[ "/home/user/vault" := Directory; "/srv/scripts" := Directory;
           "/home/user/vault/notes.md" := RegularFile ]};
  getPlatformName := fun id =>
    if bool_decide (id = "darwin") then "macOS"
    else if bool_decide (id = "linux") then "Linux"
    else if bool_decide (id = "win32") then "Windows"
    else id;
  currentPlatformId := "linux";
|}.

Definition settings_with (directory : string) : SC_MainSettings := {|
  working_directory := directory;
  preview_variables_in_command_palette := true;
  execution_notification_mode := NotificationDisabled;
|}.

(** The container with the shell commands ["3"] and ["10"]. *)
Definition two_shell_commands : gmap string () :=
  <["3" := ()]> (<["10" := ()]> ∅).

(** A shell command without confirmation or preactions, in buffered mode,
    that ignores exit code 1. *)
Definition parsed_echo : Executor.ParsingResults := {|
  Executor.shellCommandContent := "echo hello";
  Executor.shellCommandWrapper := None;
  Executor.alias_content := "";
  Executor.path_augmentation_content := "";
  Executor.stdin_content := None;
  Executor.output_wrapper_stdout_content := None;
  Executor.output_wrapper_stderr_content := None;
|}.

Definition parsing_echo : Executor.ShellCommandParsingProcess := {|
  Executor.process := true;
  Executor.processRest := true;
  Executor.getParsingResults := parsed_echo;
|}.

Definition sample_command (confirm : bool)
    (preactions : list Executor.Preaction) (platforms : list string)
  : Executor.TShellCommand := {|
  Executor.getId := "0";
  Executor.getShell := Shell.mounted_shell;
  Executor.getAlias := "";
  Executor.getAliasOrShellCommand := "echo hello";
  Executor.confirm_execution := confirm;
  Executor.getPreactions := preactions;
  Executor.createParsingProcess := parsing_echo;
  Executor.wrapShellCommandContent := fun content wrapper => content;
  Executor.getOutputHandlers :=
    {| Executor.stdout_handler := "notification";
       Executor.stderr_handler := "notification" |};
  Executor.getOutputHandlingMode := Executor.buffered;
  Executor.getIgnoreErrorCodes := [1];
  Executor.getNonEmptyPlatformIds := platforms;
|}.

Definition echo_command (confirm : bool)
    (preactions : list Executor.Preaction) : Executor.TShellCommand :=
  sample_command confirm preactions ["linux"].

(** A shell command that has content for other platforms only. *)
Definition foreign_command : Executor.TShellCommand :=
  sample_command false [] ["darwin"; "win32"].

(** A child process that wrote [ok] to stdout and [boom] to stderr. *)
Definition failed_child : Executor.ChildProcess := {|
  Executor.has_stdin := true;
  Executor.cp_stdout :=
    Some {| Executor.chunks := ["ok"]; Executor.paused := false |};
  Executor.cp_stderr :=
    Some {| Executor.chunks := ["bo"; "om"]; Executor.paused := false |};
|}.

(** One execution on the POSIX host: the configured working directory, the
    answer given in the confirmation modal, and a spawn call that yields
    [failed_child]. *)
Definition sample_env (directory : string) (answer : Task.Outcome bool)
  : Executor.Env := {|
  Executor.host := posix_host;
  Executor.settings := settings_with directory;
  Executor.confirmation_modal_promise := answer;
  Executor.spawnChildProcess := fun _ _ => Executor.Spawned failed_child;
|}.

(** A prompt that the user cancels, and one that the user submits. *)
Definition cancelled_prompt : Executor.Preaction := {|
  Executor.preaction_type := "prompt (cancelled)";
  Executor.perform := Task.Fulfilled false;
|}.

Definition submitted_prompt : Executor.Preaction := {|
  Executor.preaction_type := "prompt (submitted)";
  Executor.perform := Task.Fulfilled true;
|}.

(** Both streams routed to the same handler, served by one channel. *)
Definition shared_handlers : Executor.OutputHandlerConfigurations :=
  {| Executor.stdout_handler := "notification";
     Executor.stderr_handler := "notification" |}.

Definition shared_channels : Executor.OutputChannels :=
  [(Executor.stdout, Some 0%nat); (Executor.stderr, Some 0%nat)].

(** The child process has written [warning] to stderr, and the handler for
    stderr has read it and handed it to the channel. *)
Definition warning_dispatched : Executor.RealtimeState :=
  (Executor.handleNewOutputContent shared_channels Executor.stderr
     (Executor.pushChunk Executor.stderr "warning"
        Executor.initialRealtimeState)).2.

(** A parser that knows the variable [{{title}}] and no other one. *)
Definition sample_parseVariables (content : string) : PromptField.ParsingResult :=
  if bool_decide (content = "{{title}}") then
    {| PromptField.original_content := content;
       PromptField.parsed_content := Some "My Note";
       PromptField.succeeded := true;
       PromptField.error_messages := [];
       PromptField.count_parsed_variables := 1 |}
  else if bool_decide (content = "{{unknown}}") then
    {| PromptField.original_content := content;
       PromptField.parsed_content := None;
       PromptField.succeeded := false;
       PromptField.error_messages := ["Unrecognized variable: unknown"];
       PromptField.count_parsed_variables := 0 |}
  else
    {| PromptField.original_content := content;
       PromptField.parsed_content := Some content;
       PromptField.succeeded := true;
       PromptField.error_messages := [];
       PromptField.count_parsed_variables := 0 |}.

(** A fresh prompt field with the given default value. *)
Definition sample_field (default_value : string) : PromptField.PromptField := {|
  PromptField.configuration :=
    {| PromptField.label := "Name";
       PromptField.description := "";
       PromptField.default_value := default_value;
       PromptField.target_variable_id := "v1";
       PromptField.required := true |};
  PromptField.text_component_value := "";
  PromptField.preview_setting_desc := "";
  PromptField.parsed_value := None;
  PromptField.parsing_errors := [];
  PromptField.has_on_change_callback := false;
  PromptField.on_change_calls := 0;
|}.

(** The palette entry of the echo command, and a plugin whose cache holds a
    preparsed process for it and for another command. *)
Definition echo_palette : Plugin.PaletteCommand := {|
  Plugin.t_shell_command := echo_command false [];
  Plugin.getShellCommand := "echo hello";
  Plugin.canShowInCommandPalette := true;
|}.

Definition plugin_with_cache : Plugin.SC_Plugin := {|
  Plugin.plugin_settings := settings_with "";
  Plugin.cached_parsing_processes :=
    {[ "0" := Some parsing_echo; "1" := Some parsing_echo ]};
|}.

(** A child process without a standard input stream, an execution whose
    spawn call yields it, and a parsing result that carries stdin content. *)
Definition child_without_stdin : Executor.ChildProcess := {|
  Executor.has_stdin := false;
  Executor.cp_stdout :=
    Some {| Executor.chunks := []; Executor.paused := false |};
  Executor.cp_stderr :=
    Some {| Executor.chunks := []; Executor.paused := false |};
|}.

Definition env_spawning (outcome : Executor.SpawnOutcome) : Executor.Env := {|
  Executor.host := posix_host;
  Executor.settings := settings_with "";
  Executor.confirmation_modal_promise := Task.Fulfilled true;
  Executor.spawnChildProcess := fun _ _ => outcome;
|}.

Definition result_with_stdin : Executor.ShellCommandParsingResult :=
  Executor.makeShellCommandParsingResult (echo_command false [])
    {| Executor.shellCommandContent := "cat";
       Executor.shellCommandWrapper := None;
       Executor.alias_content := "";
       Executor.path_augmentation_content := "";
       Executor.stdin_content := Some "input";
       Executor.output_wrapper_stdout_content := None;
       Executor.output_wrapper_stderr_content := None |}.

(** A parsing process whose second phase fails, and one whose shell command
    is blank while a wrapper is configured. *)
Definition parsing_rest_fails : Executor.ShellCommandParsingProcess := {|
  Executor.process := true;
  Executor.processRest := false;
  Executor.getParsingResults := parsed_echo;
|}.

Definition parsing_blank_wrapped : Executor.ShellCommandParsingProcess := {|
  Executor.process := true;
  Executor.processRest := true;
  Executor.getParsingResults :=
    {| Executor.shellCommandContent := "  ";
       Executor.shellCommandWrapper := Some "sh -c {{shell_command_content}}";
       Executor.alias_content := "";
       Executor.path_augmentation_content := "";
       Executor.stdin_content := None;
       Executor.output_wrapper_stdout_content := None;
       Executor.output_wrapper_stderr_content := None |};
|}.

(** Containers with two shell commands, loaded from the settings. *)
Definition loaded_containers : Plugin.Containers string :=
  Plugin.loadTShellCommands
    {| Plugin.shell_commands := {[ "0" := "echo a"; "1" := "echo b" ]};
       Plugin.t_shell_commands := ∅;
       Plugin.obsidian_commands := ∅ |}.

(** Settings of the first version with a cleared command between two
    commands that have text. *)
Definition legacy_commands : gmap string LegacyPlugin.ShellCommandConfiguration :=
  {[ "0" := {| LegacyPlugin.shell_command := "ls"; LegacyPlugin.alias := "" |};
     "1" := {| LegacyPlugin.shell_command := ""; LegacyPlugin.alias := "old" |};
     "2" := {| LegacyPlugin.shell_command := "pwd"; LegacyPlugin.alias := "" |} ]}.

Definition legacy_registered : gmap string string :=
  {[ "0" := "Execute: ls"; "1" := "Execute: old"; "2" := "Execute: pwd" ]}.

(** A parsing result whose shell command is blank. *)
Definition blank_result : Executor.ShellCommandParsingResult :=
  Executor.makeShellCommandParsingResult foreign_command
    {| Executor.shellCommandContent := "  ";
       Executor.shellCommandWrapper := None;
       Executor.alias_content := "";
       Executor.path_augmentation_content := "";
       Executor.stdin_content := None;
       Executor.output_wrapper_stdout_content := None;
       Executor.output_wrapper_stderr_content := None |}.

Definition echo_result : Executor.ShellCommandParsingResult :=
  Executor.makeShellCommandParsingResult (echo_command false []) parsed_echo.

End Sample.

(** * Properties *)
Import Notions Sample.

(** ** Numbers and strings *)
Section Numbers.
Import JS.

Lemma digit_char_decimal d : 0 <= d < 10 → is_decimal_digit (digit_char d) = true.
Proof.
  intros Hd.
  assert (d = 0 ∨ d = 1 ∨ d = 2 ∨ d = 3 ∨ d = 4 ∨ d = 5 ∨ d = 6 ∨ d = 7
          ∨ d = 8 ∨ d = 9) as Hcases by lia.
  repeat (destruct Hcases as [-> | Hcases]; [reflexivity |]).
  by subst d.
Qed.

Lemma digit_value_digit_char d :
  0 <= d < 10 → digit_value 10 (digit_char d) = Some d.
Proof.
  intros Hd.
  assert (d = 0 ∨ d = 1 ∨ d = 2 ∨ d = 3 ∨ d = 4 ∨ d = 5 ∨ d = 6 ∨ d = 7
          ∨ d = 8 ∨ d = 9) as Hcases by lia.
  repeat (destruct Hcases as [-> | Hcases]; [reflexivity |]).
  by subst d.
Qed.

(** A decimal digit is neither white space, nor a sign, nor the [x] of a
    hexadecimal prefix. *)
Lemma decimal_digit_plain c :
  is_decimal_digit c = true →
  is_white_space c = false ∧ Ascii.eqb c "-" = false ∧ Ascii.eqb c "+" = false
  ∧ Ascii.eqb c "x" = false ∧ Ascii.eqb c "X" = false.
Proof.
  destruct c as [[] [] [] [] [] [] [] []]; vm_compute; intros H;
    try discriminate H; repeat split.
Qed.

Lemma digits_fuel_decimal fuel : ∀ n tail,
  is_decimal tail = true → is_decimal (digits_fuel fuel n tail) = true.
Proof.
  induction fuel as [| fuel IH]; intros n tail Htail; simpl.
  - rewrite digit_char_decimal, Htail; [done |].
    apply Z.mod_pos_bound; lia.
  - assert (is_decimal (String (digit_char (n `mod` 10)) tail) = true) as H.
    { simpl. rewrite digit_char_decimal, Htail; [done |].
      apply Z.mod_pos_bound; lia. }
    destruct (n `div` 10 =? 0); [exact H | by apply IH].
Qed.

Lemma digits_fuel_nonempty fuel : ∀ n tail, digits_fuel fuel n tail ≠ EmptyString.
Proof.
  induction fuel as [| fuel IH]; intros n tail; simpl; [done |].
  destruct (n `div` 10 =? 0); [done | apply IH].
Qed.

(** Reading back the digits that [digits_fuel] writes in front of [tail]. *)
Lemma parse_digits_digits_fuel fuel : ∀ n tail acc seen,
  0 <= n < 2 ^ (Z.of_nat fuel + 1) →
  ∃ k, 0 <= k ∧
       parse_digits 10 (digits_fuel fuel n tail) acc seen
       = parse_digits 10 tail (acc * 10 ^ k + n) true.
Proof.
  induction fuel as [| fuel IH]; intros n tail acc seen Hn.
  - exists 1. split; [lia |]. simpl in *.
    rewrite Z.mod_small by lia.
    rewrite digit_value_digit_char by lia.
    f_equal; lia.
  - simpl digits_fuel.
    destruct (Z.eqb_spec (n `div` 10) 0) as [Hsmall | Hlarge].
    + exists 1. split; [lia |]. simpl.
      assert (n < 10).
      { pose proof (Z.div_mod n 10). pose proof (Z.mod_pos_bound n 10). lia. }
      rewrite Z.mod_small by lia.
      rewrite digit_value_digit_char by lia.
      f_equal; lia.
    + assert (0 <= n `div` 10 < 2 ^ (Z.of_nat fuel + 1)) as Hdiv.
      { split; [apply Z.div_pos; lia |].
        replace (Z.of_nat (S fuel) + 1) with (Z.succ (Z.of_nat fuel + 1)) in Hn
          by lia.
        rewrite Z.pow_succ_r in Hn by lia.
        apply Z.div_lt_upper_bound; lia. }
      destruct (IH (n `div` 10) (String (digit_char (n `mod` 10)) tail)
                  acc seen Hdiv) as (k & Hk0 & Hk).
      exists (k + 1). split; [lia |]. rewrite Hk. simpl.
      pose proof (Z.mod_pos_bound n 10).
      rewrite digit_value_digit_char by lia.
      f_equal.
      rewrite Z.pow_add_r by lia.
      pose proof (Z.div_mod n 10). lia.
Qed.

Lemma strip_hex_prefix_decimal s :
  is_decimal s = true → strip_hex_prefix s = None.
Proof.
  destruct s as [| c1 [| c2 s']]; [done | done |]. simpl.
  intros H. apply andb_prop in H as [_ H]. apply andb_prop in H as [H _].
  apply decimal_digit_plain in H as (_ & _ & _ & -> & ->).
  by rewrite andb_false_r.
Qed.

Lemma parse_unsigned_digits n : 0 <= n → parse_unsigned (digits n) = Some n.
Proof.
  intros Hn. unfold parse_unsigned, digits.
  rewrite strip_hex_prefix_decimal by (by apply digits_fuel_decimal).
  destruct (parse_digits_digits_fuel (Z.to_nat (Z.log2 n)) n EmptyString 0 false)
    as (k & _ & ->); [| simpl; f_equal; lia].
  rewrite Z2Nat.id by apply Z.log2_nonneg.
  split; [done |].
  destruct (Z.eq_dec n 0) as [-> | Hpos]; [done |].
  apply Z.log2_spec. lia.
Qed.

(** [parseInt(String(n))] is [n], for every integer [n]. *)
Lemma parseInt_String_of_number n : parseInt (String_of_number n) = Some n.
Proof.
  unfold String_of_number.
  destruct (Z.ltb_spec n 0) as [Hneg | Hpos].
  - unfold parseInt. simpl.
    rewrite parse_unsigned_digits by lia. simpl. f_equal. lia.
  - pose proof (parse_unsigned_digits n Hpos) as Hparse.
    assert (is_decimal (digits n) = true) as Hdec
      by (by apply digits_fuel_decimal).
    assert (digits n ≠ EmptyString) as Hne by apply digits_fuel_nonempty.
    destruct (digits n) as [| c s']; [done |].
    simpl in Hdec. apply andb_prop in Hdec as [Hc _].
    apply decimal_digit_plain in Hc as (Hws & Hminus & Hplus & _).
    unfold parseInt. simpl. by rewrite Hws, Hminus, Hplus.
Qed.

Lemma String_of_number_inj n m :
  String_of_number n = String_of_number m → n = m.
Proof.
  intros H. apply (f_equal parseInt) in H.
  rewrite !parseInt_String_of_number in H. congruence.
Qed.

End Numbers.

(** ** New shell command identifiers *)
Section NewShellCommandID.
Import Plugin.

Lemma foldl_nextId names : ∀ new_id,
  foldl nextId new_id names = foldl raise new_id (omap JS.parseInt names).
Proof.
  induction names as [| name names IH]; intros new_id; [done |].
  simpl. unfold nextId at 2.
  destruct (JS.parseInt name) as [existing_id |]; simpl; apply IH.
Qed.

Lemma foldl_raise_ge ids : ∀ new_id, new_id <= foldl raise new_id ids.
Proof.
  induction ids as [| id ids IH]; intros new_id; simpl; [lia |].
  etrans; [| apply IH]. unfold raise. destruct (Z.leb_spec new_id id); lia.
Qed.

Lemma foldl_raise_above ids : ∀ new_id id,
  id ∈ ids → id < foldl raise new_id ids.
Proof.
  induction ids as [| id' ids IH]; intros new_id id Hin.
  - by apply elem_of_nil in Hin.
  - simpl. apply elem_of_cons in Hin as [-> | Hin]; [| by apply IH].
    eapply Z.lt_le_trans; [| apply foldl_raise_ge].
    unfold raise. destruct (Z.leb_spec new_id id'); lia.
Qed.

Lemma foldl_raise_attained ids : ∀ new_id,
  foldl raise new_id ids = new_id
  ∨ ∃ id, id ∈ ids ∧ foldl raise new_id ids = id + 1.
Proof.
  induction ids as [| id' ids IH]; intros new_id; simpl; [by left |].
  destruct (IH (raise new_id id')) as [-> | (id & Hin & ->)].
  - unfold raise. destruct (Z.leb_spec new_id id'); [right | by left].
    exists id'. split; [apply list_elem_of_here | done].
  - right. exists id. split; [by apply list_elem_of_further | done].
Qed.

Lemma maxId_spec ids mx :
  maxId ids = Some mx → mx ∈ ids ∧ ∀ id, id ∈ ids → id <= mx.
Proof.
  destruct ids as [| id0 rest]; [done |]. simpl. intros [= <-].
  induction rest as [| id rest IH]; simpl.
  - split; [apply list_elem_of_here |].
    intros id Hin. apply list_elem_of_singleton in Hin. lia.
  - destruct IH as [Hin Hmax]. split.
    + destruct (Z.max_spec id (foldr Z.max id0 rest)) as [[_ ->] | [_ ->]].
      * apply elem_of_cons in Hin as [Heq | Hin].
        -- rewrite Heq. apply list_elem_of_here.
        -- do 2 apply list_elem_of_further. done.
      * apply list_elem_of_further, list_elem_of_here.
    + intros id' Hin'.
      apply elem_of_cons in Hin' as [-> | Hin'].
      * specialize (Hmax id0 (list_elem_of_here _ _)). lia.
      * apply elem_of_cons in Hin' as [-> | Hin']; [lia |].
        specialize (Hmax id' (list_elem_of_further _ _ _ Hin')). lia.
Qed.

Lemma elem_of_own_property_names {A} (m : gmap string A) name :
  name ∈ (map_to_list m).*1 ↔ is_Some (m !! name).
Proof.
  rewrite list_elem_of_fmap. split.
  - intros ([name' a] & -> & Hin). apply elem_of_map_to_list in Hin. by exists a.
  - intros [a Ha]. exists (name, a). split; [done |].
    by apply elem_of_map_to_list.
Qed.

(** The number behind the new identifier is above every existing identifier
    that is a number. *)
Lemma new_id_above names name id :
  name ∈ names → JS.parseInt name = Some id →
  id < foldl nextId 0 names.
Proof.
  intros Hin Hparse. rewrite foldl_nextId.
  apply foldl_raise_above. apply list_elem_of_omap. eauto.
Qed.

Lemma generateNewShellCommandID_from_no_collision names name id :
  name ∈ names → name = JS.String_of_number id →
  generateNewShellCommandID_from names ≠ name.
Proof.
  intros Hin -> Heq. apply String_of_number_inj in Heq.
  pose proof (new_id_above names _ id Hin (parseInt_String_of_number id)).
  lia.
Qed.




End NewShellCommandID.

(** ** Working directory resolution *)
Section WorkingDirectory.

Variables (h : Host) (settings : SC_MainSettings) (shell : Shell.Shell).

(** Without a configured directory, the shell gets the translated vault
    location. *)
Lemma getWorkingDirectory_empty :
  working_directory settings = "" →
  Shell.getWorkingDirectory h settings shell
  = Shell.translateAbsolutePath shell (vaultAbsolutePath h).
Proof. intros Hwd. unfold Shell.getWorkingDirectory. by rewrite Hwd. Qed.

(** A relative directory is joined to the vault location, then translated. *)
Lemma getWorkingDirectory_relative :
  working_directory settings ≠ "" →
  Path.isAbsolute (path h) (working_directory settings) = false →
  Shell.getWorkingDirectory h settings shell
  = Shell.translateAbsolutePath shell
      (Path.join (path h) (vaultAbsolutePath h) (working_directory settings)).
Proof.
  intros Hwd Hrel. unfold Shell.getWorkingDirectory.
  rewrite bool_decide_eq_false_2 by done. by rewrite Hrel.
Qed.

(** An absolute directory comes back as it is configured: no joining, and
    no translation either. *)
Lemma getWorkingDirectory_absolute :
  Path.isAbsolute (path h) (working_directory settings) = true →
  working_directory settings ≠ "" →
  Shell.getWorkingDirectory h settings shell = working_directory settings.
Proof.
  intros Habs Hwd. unfold Shell.getWorkingDirectory.
  rewrite bool_decide_eq_false_2 by done. by rewrite Habs.
Qed.

(** In the first two cases the shell's directory is the translation of the
    directory that the executor resolves for the child process. *)
Lemma getWorkingDirectory_translates_executor :
  working_directory settings = ""
  ∨ Path.isAbsolute (path h) (working_directory settings) = false →
  Shell.getWorkingDirectory h settings shell
  = Shell.translateAbsolutePath shell
      (Executor.getWorkingDirectory h settings).
Proof.
  unfold Shell.getWorkingDirectory, Executor.getWorkingDirectory.
  intros [Hwd | Hrel].
  - by rewrite Hwd.
  - rewrite Hrel. simpl. by case_bool_decide.
Qed.

(** The result is the translated one exactly when translating the absolute
    directory changes nothing. *)
Lemma getWorkingDirectory_translated_iff :
  Shell.getWorkingDirectory h settings shell
  = Shell.getWorkingDirectory_translated h settings shell
  ↔ (working_directory settings ≠ "" →
     Path.isAbsolute (path h) (working_directory settings) = true →
     Shell.translateAbsolutePath shell (working_directory settings)
     = working_directory settings).
Proof.
  unfold Shell.getWorkingDirectory, Shell.getWorkingDirectory_translated.
  case_bool_decide as Hwd.
  - split; [intros _ Hne; by destruct Hne | done].
  - destruct (Path.isAbsolute (path h) (working_directory settings)); simpl.
    + split; [intros Heq _ _; by symmetry | intros Heq; symmetry; by apply Heq].
    + split; [intros _ _ Habs; discriminate Habs | done].
Qed.

End WorkingDirectory.

(** C1 at an absolute working directory: for the shell that reaches host
    paths below a mount point, the empty and the relative setting give
    translated directories, while [/srv/scripts] comes back untranslated
    although its translation is [/mnt/host/srv/scripts]. *)
Theorem getWorkingDirectory_absolute_not_translated :
  Shell.getWorkingDirectory posix_host (settings_with "") Shell.mounted_shell
  = "/mnt/host/home/user/vault"
  ∧ Shell.getWorkingDirectory posix_host (settings_with "scripts")
      Shell.mounted_shell
    = "/mnt/host/home/user/vault/scripts"
  ∧ Shell.getWorkingDirectory posix_host (settings_with "/srv/scripts")
      Shell.mounted_shell
    = "/srv/scripts"
  ∧ Shell.getWorkingDirectory_translated posix_host
      (settings_with "/srv/scripts") Shell.mounted_shell
    = "/mnt/host/srv/scripts".
Proof. by vm_compute. Qed.

(** ** Buffered output *)
Section BufferedOutput.
Import Task Executor.

Variables (t_shell_command : TShellCommand)
          (outputChannels : OutputHandlerConfigurations).

(** C2: what the exit handler of buffered mode dispatches. A null exit code,
    and a positive one that is not ignored, go out as an error: stderr and
    the exit code are passed on untouched. A positive exit code on the
    ignore list goes out as a success: stderr is emptied and the exit code
    is cleared. Exit code 0 goes out as code 0 with stderr passed on, or
    with stderr emptied when 0 is on the ignore list. *)
Theorem onExitBuffered_classification child_process out err exitCode :
  cp_stdout child_process = Some out →
  cp_stderr child_process = Some err →
  let stdout_content := default "" (read out).1 in
  let stderr_content := default "" (read err).1 in
  let ignored := getIgnoreErrorCodes t_shell_command in
  let dispatched stderr_content exitCode :=
    Fulfilled {| dispatched_stdout := stdout_content;
                 dispatched_stderr := stderr_content;
                 dispatched_exitCode := exitCode;
                 dispatched_outputChannels := outputChannels |} in
  let result :=
    onExitBuffered t_shell_command outputChannels child_process exitCode in
  (exitCode = None → result = dispatched stderr_content None)
  ∧ (∀ code, exitCode = Some code → 0 < code → code ∉ ignored →
     result = dispatched stderr_content (Some code))
  ∧ (∀ code, exitCode = Some code → 0 < code → code ∈ ignored →
     result = dispatched "" None)
  ∧ (exitCode = Some 0 → 0 ∉ ignored →
     result = dispatched stderr_content (Some 0))
  ∧ (exitCode = Some 0 → 0 ∈ ignored → result = dispatched "" (Some 0)).
Proof.
  intros Hout Herr. simpl. unfold onExitBuffered. rewrite Hout, Herr.
  split; [by intros -> |].
  split.
  { intros code -> Hpos Hnot.
    destruct (Z.ltb_spec 0 code); [| lia].
    by rewrite bool_decide_eq_false_2. }
  split.
  { intros code -> Hpos Hin.
    destruct (Z.ltb_spec 0 code); [| lia].
    by rewrite bool_decide_eq_true_2. }
  split.
  { intros -> Hnot. simpl. rewrite (bool_decide_eq_false_2 _ Hnot).
    by destruct (0 <? String.length _)%nat. }
  intros -> Hin. simpl. rewrite (bool_decide_eq_true_2 _ Hin).
  destruct (default "" (read err).1) as [| c s]; done.
Qed.

End BufferedOutput.

Lemma onExitBuffered_classification_witness :
  Executor.onExitBuffered (echo_command false [])
    (Executor.getOutputHandlers (echo_command false []))
    failed_child (Some 1)
  = Task.Fulfilled
      {| Executor.dispatched_stdout := "ok";
         Executor.dispatched_stderr := "";
         Executor.dispatched_exitCode := None;
         Executor.dispatched_outputChannels :=
           Executor.getOutputHandlers (echo_command false []) |}.
Proof.
  pose proof (onExitBuffered_classification (echo_command false [])
                (Executor.getOutputHandlers (echo_command false []))
                failed_child _ _ (Some 1) eq_refl eq_refl)
    as (_ & _ & Hignored & _).
  apply (Hignored 1); [done | lia |].
  apply list_elem_of_here.
Defined.

(** ** The preaction pipeline *)
Section Pipeline.
Import Task Executor.

Lemma trace_bind {A B} (m : Task Event A) (f : A → Task Event B) :
  trace (bind m f)
  = match outcome m with
    | Fulfilled a => trace m ++ trace (f a)
    | _ => trace m
    end.
Proof.
  destruct m as [[a | message |] t]; simpl; [| done | done].
  by destruct (f a).
Qed.

Lemma outcome_bind {A B} (m : Task Event A) (f : A → Task Event B) :
  outcome (bind m f)
  = match outcome m with
    | Fulfilled a => outcome (f a)
    | Rejected message => Rejected message
    | Pending => Pending
    end.
Proof.
  destruct m as [[a | message |] t]; simpl; [| done | done].
  by destruct (f a).
Qed.

Variables (env : Env) (t_shell_command : TShellCommand).

(** Nothing chained behind a promise that never settles is ever called. *)
Lemma chain_pending preactions : ∀ t, chain (Pending, t) preactions = (Pending, t).
Proof. induction preactions as [| p ps IH]; intros t; [done | apply IH]. Qed.

Lemma chain_rejected preactions : ∀ message t,
  chain (Rejected message, t) preactions = (Rejected message, t).
Proof.
  induction preactions as [| p ps IH]; intros message t; [done | apply IH].
Qed.

(** A preaction is performed whatever the step before it resolved to. *)
Lemma chain_fulfilled p preactions (b : bool) t :
  chain (Fulfilled b, t) (p :: preactions)
  = chain (perform p, t ++ [EvPreactionPerform (preaction_type p)]) preactions.
Proof.
  unfold chain. simpl. unfold performPreaction, bind, emit. by simpl.
Qed.

(** Closes goals stating that a listed trace holds pipeline events only. *)
Ltac pipeline_events :=
  simpl; repeat first [exact I | constructor].

Lemma chain_pipelineEvents preactions : ∀ pipeline,
  Forall pipelineEvent (trace pipeline) →
  Forall pipelineEvent (trace (chain pipeline preactions)).
Proof.
  induction preactions as [| p ps IH]; intros pipeline Hpipe; [done |].
  apply IH. rewrite trace_bind.
  destruct (outcome pipeline); [| done | done].
  apply Forall_app. split; [done |].
  unfold performPreaction. simpl. pipeline_events.
Qed.

Lemma preaction_pipeline_events :
  Forall pipelineEvent (trace (preaction_pipeline env t_shell_command)).
Proof.
  unfold preaction_pipeline. apply chain_pipelineEvents.
  destruct (confirm_execution t_shell_command); [| by constructor].
  unfold askConfirmation.
  destruct (confirmation_modal_promise env) as [[|] | |]; simpl;
    pipeline_events.
Qed.

(** A run of [doPreactionsAndExecuteShellCommand] consists of pipeline
    events, followed by one run of [executeShellCommand] at most. *)
Lemma doPreactionsAndExecuteShellCommand_trace parsing_process overriding :
  ∃ before after,
    trace (doPreactionsAndExecuteShellCommand env t_shell_command
             parsing_process overriding) = before ++ after
    ∧ Forall pipelineEvent before
    ∧ (after = []
       ∨ ∃ r, after = trace (executeShellCommand env t_shell_command r
                               overriding)).
Proof.
  assert (∀ pp (pre : list Event), Forall pipelineEvent pre →
    ∃ before after,
      pre ++ trace (let* can_execute := preaction_pipeline env t_shell_command in
                    afterPreactions env t_shell_command pp overriding can_execute)
      = before ++ after
      ∧ Forall pipelineEvent before
      ∧ (after = []
         ∨ ∃ r, after = trace (executeShellCommand env t_shell_command r
                                 overriding))) as Hrest.
  { intros pp pre Hpre. rewrite trace_bind.
    pose proof preaction_pipeline_events as Hevents.
    destruct (outcome (preaction_pipeline env t_shell_command)) as [[|] | |].
    - unfold afterPreactions. rewrite trace_bind. simpl.
      destruct (processRest pp).
      + eexists (pre ++ trace (preaction_pipeline env t_shell_command)
                 ++ [EvProcessRest]), _.
        split; [by rewrite <- !app_assoc |].
        split; [| right; eauto].
        apply Forall_app; split; [done |]. apply Forall_app; split; [done |].
        pipeline_events.
      + exists (pre ++ trace (preaction_pipeline env t_shell_command)
                ++ [EvProcessRest; EvDisplayErrorMessages]), [].
        split; [by rewrite app_nil_r |]. split; [| by left].
        apply Forall_app; split; [done |]. apply Forall_app; split; [done |].
        pipeline_events.
    - exists (pre ++ trace (preaction_pipeline env t_shell_command)), [].
      split; [simpl; by rewrite !app_nil_r |]. split; [| by left].
      by apply Forall_app.
    - exists (pre ++ trace (preaction_pipeline env t_shell_command)), [].
      split; [by rewrite !app_nil_r |]. split; [| by left].
      by apply Forall_app.
    - exists (pre ++ trace (preaction_pipeline env t_shell_command)), [].
      split; [by rewrite !app_nil_r |]. split; [| by left].
      by apply Forall_app. }
  unfold doPreactionsAndExecuteShellCommand.
  destruct parsing_process as [pp |].
  - destruct (Hrest pp []) as (before & after & Heq & Hbefore & Hafter);
      [constructor |].
    exists before, after. split; [| done]. rewrite <- Heq.
    by rewrite trace_bind.
  - destruct (process (createParsingProcess t_shell_command)) eqn:Hprocess.
    + destruct (Hrest (createParsingProcess t_shell_command) [EvProcess])
        as (before & after & Heq & Hbefore & Hafter); [pipeline_events |].
      exists before, after. split; [| done]. rewrite <- Heq.
      by rewrite trace_bind, outcome_bind, trace_bind.
    + exists [EvProcess; EvDisplayErrorMessages], []. split; [| split].
      * by rewrite trace_bind, outcome_bind, trace_bind.
      * pipeline_events.
      * by left.
Qed.

(** The pipeline resolves to what its last preaction resolves to, as long
    as the preactions before it resolve at all. *)
Lemma chain_outcome_last preactions : ∀ p (b : bool) t,
  Forall (fun q => ∃ answer, perform q = Fulfilled answer) preactions →
  outcome (chain (Fulfilled b, t) (preactions ++ [p])) = perform p.
Proof.
  induction preactions as [| q qs IH]; intros p b t Hall; [done |].
  apply Forall_cons in Hall as [[answer Hq] Hall].
  change ((q :: qs) ++ [p]) with (q :: (qs ++ [p])).
  rewrite chain_fulfilled, Hq. by apply IH.
Qed.

(** When the user declines the confirmation, the promise of the confirmation
    step is never settled: nothing but the opening of the modal happens. *)
Lemma declined_confirmation_abandons parsing_process overriding :
  confirm_execution t_shell_command = true →
  confirmation_modal_promise env = Fulfilled false →
  doPreactionsAndExecuteShellCommand env t_shell_command
    (Some parsing_process) overriding
  = (Pending,
     [EvConfirmationModalOpen (getAliasOrShellCommand t_shell_command)]).
Proof.
  intros Hconfirm Hanswer.
  unfold doPreactionsAndExecuteShellCommand, preaction_pipeline, askConfirmation.
  rewrite Hconfirm, Hanswer. simpl. by rewrite chain_pending.
Qed.

(** So a declined confirmation performs no preaction, does not reach
    [processRest()], spawns nothing and shows no error. *)
Lemma declined_confirmation_silent parsing_process overriding :
  confirm_execution t_shell_command = true →
  confirmation_modal_promise env = Fulfilled false →
  let t := trace (doPreactionsAndExecuteShellCommand env t_shell_command
                    (Some parsing_process) overriding) in
  (∀ type, EvPreactionPerform type ∉ t)
  ∧ (EvProcessRest ∉ t) ∧ ¬ spawns t ∧ ¬ showsError t.
Proof.
  intros Hconfirm Hanswer. simpl.
  rewrite (declined_confirmation_abandons _ _ Hconfirm Hanswer). simpl.
  split; [intros type Hin; apply list_elem_of_singleton in Hin; discriminate |].
  split; [intros Hin; apply list_elem_of_singleton in Hin; discriminate |].
  split.
  - intros (command & wd & Hin).
    apply list_elem_of_singleton in Hin. discriminate.
  - intros [Hin | [message Hin]];
      apply list_elem_of_singleton in Hin; discriminate.
Qed.

(** When the pipeline resolves to "do not proceed", nothing happens after
    it: no [processRest()], no spawn, no error. *)
Lemma cancelled_pipeline_abandons parsing_process overriding :
  outcome (preaction_pipeline env t_shell_command) = Fulfilled false →
  doPreactionsAndExecuteShellCommand env t_shell_command
    (Some parsing_process) overriding
  = (Fulfilled (), trace (preaction_pipeline env t_shell_command)).
Proof.
  intros Hcancel. unfold doPreactionsAndExecuteShellCommand. simpl.
  destruct (preaction_pipeline env t_shell_command) as [o t].
  simpl in Hcancel. subst o. simpl. by rewrite app_nil_r.
Qed.

End Pipeline.

(** C3 at a cancelled prompt that is not the last preaction: no confirmation
    is configured, the first prompt resolves to "do not proceed" and the
    second one to "proceed". The second prompt is performed all the same,
    [processRest()] runs and the child process is spawned. *)
Theorem cancelled_preaction_does_not_stop_pipeline :
  Executor.doPreactionsAndExecuteShellCommand
    (sample_env "" (Task.Fulfilled true))
    (echo_command false [cancelled_prompt; submitted_prompt])
    None None
  = (Task.Fulfilled (),
     [Executor.EvProcess;
      Executor.EvPreactionPerform "prompt (cancelled)";
      Executor.EvPreactionPerform "prompt (submitted)";
      Executor.EvProcessRest;
      Executor.EvSpawnChildProcess "echo hello" "/home/user/vault";
      Executor.EvOnError;
      Executor.EvSetEncoding Executor.stdout;
      Executor.EvSetEncoding Executor.stderr;
      Executor.EvHandleBufferedOutput
        {| Executor.stdout_handler := "notification";
           Executor.stderr_handler := "notification" |}]).
Proof. by vm_compute. Qed.

(** The same two prompts in the other order: the cancelled one is the last
    step, and the execution is abandoned without a trace of an error. *)
Lemma cancelled_last_preaction_stops_pipeline :
  Executor.doPreactionsAndExecuteShellCommand
    (sample_env "" (Task.Fulfilled true))
    (echo_command false [submitted_prompt; cancelled_prompt])
    None None
  = (Task.Fulfilled (),
     [Executor.EvProcess;
      Executor.EvPreactionPerform "prompt (submitted)";
      Executor.EvPreactionPerform "prompt (cancelled)"]).
Proof. by vm_compute. Qed.

(** A declined confirmation, with a prompt configured behind it. *)
Lemma declined_confirmation_example :
  Executor.doPreactionsAndExecuteShellCommand
    (sample_env "" (Task.Fulfilled false))
    (echo_command true [submitted_prompt])
    None None
  = (Task.Pending,
     [Executor.EvProcess; Executor.EvConfirmationModalOpen "echo hello"]).
Proof. by vm_compute. Qed.

(** ** Validation before the spawn *)
Section Validation.
Import Task Executor.

Lemma append_cons x (a b : string) : String x a +:+ b = String x (a +:+ b).
Proof. reflexivity. Qed.

Lemma append_empty_r (a : string) : a +:+ "" = a.
Proof.
  induction a as [| x a IH]; [done |]. rewrite append_cons. by f_equal.
Qed.

Lemma append_assoc (a b c : string) : (a +:+ b) +:+ c = a +:+ b +:+ c.
Proof.
  induction a as [| x a IH]; [done |]. rewrite !append_cons. by f_equal.
Qed.

Lemma occursIn_refl s : occursIn s s.
Proof. exists "", "". by rewrite append_empty_r. Qed.

Lemma occursIn_append needle before text after :
  occursIn needle text → occursIn needle (before +:+ text +:+ after).
Proof.
  intros (b & a & ->). exists (before +:+ b), (a +:+ after).
  by rewrite !append_assoc.
Qed.

Lemma occursIn_append_l needle before text :
  occursIn needle text → occursIn needle (before +:+ text).
Proof.
  intros (b & a & ->). exists (before +:+ b), a. by rewrite !append_assoc.
Qed.

Lemma occursIn_join_and names name :
  name ∈ names → occursIn name (join_and names).
Proof.
  induction names as [| n [| n' rest] IH]; intros Hin.
  - by apply elem_of_nil in Hin.
  - apply list_elem_of_singleton in Hin as ->. apply occursIn_refl.
  - apply elem_of_cons in Hin as [-> | Hin].
    + exists "", (" and " +:+ join_and (n' :: rest)). done.
    + change (join_and (n :: n' :: rest))
        with (n +:+ " and " +:+ join_and (n' :: rest)).
      rewrite <- append_assoc. apply occursIn_append_l. by apply IH.
Qed.

Variables (env : Env) (t_shell_command : TShellCommand).

(** The two messages for an empty shell command: one when no platform has
    content, another one, naming the current platform and every platform
    that has content, otherwise. *)
Lemma getErrorMessageForEmptyShellCommand_cases :
  let message := getErrorMessageForEmptyShellCommand (host env) t_shell_command in
  let ids := getNonEmptyPlatformIds t_shell_command in
  (ids = [] → message = "The shell command is empty. :(")
  ∧ (ids ≠ [] →
     message ≠ "The shell command is empty. :("
     ∧ occursIn (getCurrentPlatformName (host env)) message
     ∧ ∀ id, id ∈ ids → occursIn (getPlatformName (host env) id) message).
Proof.
  simpl. unfold getErrorMessageForEmptyShellCommand.
  destruct (getNonEmptyPlatformIds t_shell_command) as [| id0 ids] eqn:Hids.
  - split; [done | by intros H].
  - split; [done | intros _]. simpl (0 <? _)%nat. cbv iota.
    split; [discriminate |].
    split.
    + apply occursIn_append_l.
      exists "", (", it only has "
                  +:+ (if (1 <? length (id0 :: ids))%nat
                       then "versions" else "a version")
                  +:+ " for "
                  +:+ join_and (getPlatformName (host env) <$> id0 :: ids)
                  +:+ ".").
      done.
    + intros id Hin.
      apply occursIn_append_l, occursIn_append_l, occursIn_append_l,
        occursIn_append_l, occursIn_append_l.
      destruct (occursIn_join_and (getPlatformName (host env) <$> id0 :: ids)
                  (getPlatformName (host env) id)) as (b & a & ->).
      { by apply list_elem_of_fmap_2. }
      exists b, (a +:+ "."). by rewrite !append_assoc.
Qed.

(** C5: a shell command that is empty once white space is stripped stops
    [executeShellCommand] at an error notice, before any spawn. The notice
    says that the command is empty when no platform has content; otherwise
    it is a different text, which names the current platform and every
    platform that does have content. *)
Theorem empty_command_fails_before_spawn r overriding_output_channel :
  JS.trim (unwrappedShellCommandContent r) = "" →
  let message := getErrorMessageForEmptyShellCommand (host env) t_shell_command in
  let ids := getNonEmptyPlatformIds t_shell_command in
  executeShellCommand env t_shell_command r overriding_output_channel
  = (Fulfilled (), [EvNewError message])
  ∧ ¬ spawns (trace (executeShellCommand env t_shell_command r
                       overriding_output_channel))
  ∧ (ids = [] → message = "The shell command is empty. :(")
  ∧ (ids ≠ [] →
     message ≠ "The shell command is empty. :("
     ∧ occursIn (getCurrentPlatformName (host env)) message
     ∧ ∀ id, id ∈ ids → occursIn (getPlatformName (host env) id) message).
Proof.
  intros Hempty. simpl.
  assert (executeShellCommand env t_shell_command r overriding_output_channel
          = (Fulfilled (),
             [EvNewError (getErrorMessageForEmptyShellCommand (host env)
                            t_shell_command)])) as Hrun.
  { unfold executeShellCommand. by rewrite Hempty. }
  split; [exact Hrun |]. split.
  - rewrite Hrun. intros (command & wd & Hin).
    apply list_elem_of_singleton in Hin. discriminate Hin.
  - apply getErrorMessageForEmptyShellCommand_cases.
Qed.

Lemma length_zero_empty (s : string) : String.length s = 0%nat → s = "".
Proof. by destruct s. Qed.

(** C4: when the resolved working directory is missing, or is not a
    directory, [executeShellCommand] does nothing but show one error notice;
    for a shell command with content the notice tells which of the two it is
    and names the directory. No run of the whole pipeline spawns a child
    process. *)
Theorem invalid_working_directory_prevents_spawn overriding_output_channel :
  let working_directory := getWorkingDirectory (host env) (settings env) in
  existsSync (host env) working_directory = false
  ∨ isDirectory (host env) working_directory = false →
  (∀ r, ∃ message,
     executeShellCommand env t_shell_command r overriding_output_channel
     = (Fulfilled (), [EvNewError message])
     ∧ (JS.trim (unwrappedShellCommandContent r) ≠ "" →
        message =
          (if existsSync (host env) working_directory
           then "Working directory exists but is not a folder: "
           else "Working directory does not exist: ") +:+ working_directory))
  ∧ (∀ r, ¬ spawns (trace (executeShellCommand env t_shell_command r
                              overriding_output_channel)))
  ∧ ∀ parsing_process,
      ¬ spawns (trace (doPreactionsAndExecuteShellCommand env t_shell_command
                         parsing_process overriding_output_channel)).
Proof.
  intros working_directory Hinvalid.
  assert (∀ r, ∃ message,
     executeShellCommand env t_shell_command r overriding_output_channel
     = (Fulfilled (), [EvNewError message])
     ∧ (JS.trim (unwrappedShellCommandContent r) ≠ "" →
        message =
          (if existsSync (host env) working_directory
           then "Working directory exists but is not a folder: "
           else "Working directory does not exist: ") +:+ working_directory))
    as Hrun.
  { intros r. unfold executeShellCommand. fold working_directory.
    destruct (Nat.eqb_spec (String.length (JS.trim (unwrappedShellCommandContent r))) 0)
      as [Hlen | Hlen].
    { eexists. split; [done |]. intros Hne. by apply length_zero_empty in Hlen. }
    destruct (existsSync (host env) working_directory) eqn:Hexists; simpl.
    - destruct Hinvalid as [Hcontra | ->]; [discriminate Hcontra |]. simpl.
      eexists. split; [done | done].
    - eexists. split; [done | done]. }
  assert (∀ r, ¬ spawns (trace (executeShellCommand env t_shell_command r
                                  overriding_output_channel))) as Hexec.
  { intros r (command & wd & Hin).
    destruct (Hrun r) as (message & Heq & _). rewrite Heq in Hin.
    apply list_elem_of_singleton in Hin. discriminate Hin. }
  split; [exact Hrun |]. split; [exact Hexec |].
  intros parsing_process (command & wd & Hin).
  destruct (doPreactionsAndExecuteShellCommand_trace env t_shell_command
              parsing_process overriding_output_channel)
    as (before & after & Heq & Hbefore & Hafter).
  rewrite Heq in Hin. apply elem_of_app in Hin as [Hin | Hin].
  - rewrite Forall_forall in Hbefore. by apply Hbefore in Hin.
  - destruct Hafter as [-> | [r ->]].
    + by apply elem_of_nil in Hin.
    + apply (Hexec r). by exists command, wd.
Qed.

End Validation.

Lemma empty_command_fails_before_spawn_witness :
  Executor.executeShellCommand (sample_env "" (Task.Fulfilled true))
    foreign_command blank_result None
  = (Task.Fulfilled (),
     [Executor.EvNewError
        "The shell command does not have a version for Linux, it only has versions for macOS and Windows."]).
Proof.
  exact (proj1 (empty_command_fails_before_spawn
                  (sample_env "" (Task.Fulfilled true))
                  foreign_command blank_result None eq_refl)).
Defined.

Lemma invalid_working_directory_prevents_spawn_witness :
  ∃ message,
    Executor.executeShellCommand
      (sample_env "notes.md" (Task.Fulfilled true))
      (echo_command false []) echo_result None
    = (Task.Fulfilled (), [Executor.EvNewError message])
    ∧ message
      = "Working directory exists but is not a folder: /home/user/vault/notes.md".
Proof.
  destruct (invalid_working_directory_prevents_spawn
              (sample_env "notes.md" (Task.Fulfilled true))
              (echo_command false []) None (or_intror eq_refl))
    as (Hrun & _ & _).
  destruct (Hrun echo_result) as (message & Heq & Hmessage).
  exists message. split; [exact Heq |].
  rewrite Hmessage; [reflexivity | discriminate].
Defined.

(** ** Realtime output: the end of the process *)
Section RealtimeExit.
Import Task Executor.

Variables (configurations : OutputHandlerConfigurations) (exitCode : option Z).

Lemma endRealtimeCalls_all code t :
  Forall (fun e => endsRealtimeFor configurations code e = true) t →
  endRealtimeCalls configurations code t = length t.
Proof.
  induction t as [| e t IH]; intros Hall; [done |].
  apply Forall_cons in Hall as [He Hall]. simpl. rewrite He. by rewrite IH.
Qed.

(** The loop calls [endRealtime] once for every handler code that occurs
    among the remaining streams and has not been called yet, and for no
    other code. *)
Lemma endRealtimeLoop_calls names : ∀ already,
  (∀ name channel, (name, channel) ∈ names → channel ≠ None) →
  ∃ codes t,
    endRealtimeLoop configurations exitCode names already = (Fulfilled codes, t)
    ∧ (∀ code,
         endRealtimeCalls configurations code t
         = if decide (code ∈ already) then 0%nat
           else if decide (code ∈ handler configurations <$> names.*1)
                then 1%nat else 0%nat)
    ∧ Forall (fun e => ∃ name channel,
                e = EvEndRealtime name channel exitCode
                ∧ (name, Some channel) ∈ names) t.
Proof.
  induction names as [| [name [channel |]] names IH]; intros already Hdefined.
  - exists already, []. split; [done |]. split; [| constructor].
    intros code. simpl. by destruct (decide (code ∈ already)).
  - assert (∀ name channel, (name, channel) ∈ names → channel ≠ None) as Hrest.
    { intros n c Hin. apply (Hdefined n). by apply list_elem_of_further. }
    simpl. case_bool_decide as Hcalled.
    + destruct (IH already Hrest) as (codes & t & -> & Hcount & Hevents).
      exists codes, t. split; [done |]. split.
      * intros code. rewrite Hcount.
        destruct (decide (code ∈ already)) as [Hin | Hnot]; [done |].
        assert (code ≠ handler configurations name) as Hne by congruence.
        destruct (decide (code ∈ handler configurations <$> names.*1))
          as [Hrest_in | Hrest_not].
        -- rewrite decide_True; [done | by apply list_elem_of_further].
        -- rewrite decide_False; [done |]. intros Hin.
           apply elem_of_cons in Hin as [? | ?]; done.
      * eapply Forall_impl; [exact Hevents |].
        intros e (n & c & -> & Hin). exists n, c.
        split; [done | by apply list_elem_of_further].
    + destruct (IH (already ++ [handler configurations name]) Hrest)
        as (codes & t & Hloop & Hcount & Hevents).
      exists codes, (EvEndRealtime name channel exitCode :: t).
      split; [unfold bind, emit; by rewrite Hloop |]. split.
      * intros code. simpl endRealtimeCalls. rewrite Hcount.
        destruct (decide (code = handler configurations name)) as [-> | Hne].
        -- rewrite bool_decide_eq_true_2 by done.
           rewrite (decide_True (P := _ ∈ already ++ _))
             by (apply elem_of_app; right; apply list_elem_of_here).
           rewrite (decide_False (P := _ ∈ already)) by done.
           rewrite decide_True; [done | apply list_elem_of_here].
        -- rewrite bool_decide_eq_false_2 by done.
           destruct (decide (code ∈ already)) as [Hin | Hnot].
           ++ rewrite decide_True; [done |]. apply elem_of_app. by left.
           ++ rewrite (decide_False (P := _ ∈ already ++ _)).
              ** destruct (decide (code ∈ handler configurations <$> names.*1))
                   as [Hrest_in | Hrest_not].
                 --- rewrite decide_True; [done |].
                     by apply list_elem_of_further.
                 --- rewrite decide_False; [done |]. intros Hin.
                     apply elem_of_cons in Hin as [? | ?]; done.
              ** intros Hin. apply elem_of_app in Hin as [? | Hin]; [done |].
                 by apply list_elem_of_singleton in Hin.
      * constructor.
        -- exists name, channel. split; [done | apply list_elem_of_here].
        -- eapply Forall_impl; [exact Hevents |].
           intros e (n & c & -> & Hin). exists n, c.
           split; [done | by apply list_elem_of_further].
  - exfalso. apply (Hdefined name None); [apply list_elem_of_here | done].
Qed.

(** C6: when the process exits in realtime mode, and every stream of the
    output channels has its channel, [endRealtime] is called exactly once
    for the handler code of each stream, always on the channel of a stream.
    With one handler code for stdout and stderr there is one call in all. *)
Theorem endRealtime_called_once (outputChannels : OutputChannels) :
  (∀ name channel, (name, channel) ∈ outputChannels → channel ≠ None) →
  let run := onExitRealtime configurations outputChannels exitCode in
  (∃ codes, outcome run = Fulfilled codes)
  ∧ (∀ name, name ∈ outputChannels.*1 →
     endRealtimeCalls configurations (handler configurations name) (trace run)
     = 1%nat)
  ∧ (∀ e, e ∈ trace run →
     ∃ name channel, e = EvEndRealtime name channel exitCode
                     ∧ (name, Some channel) ∈ outputChannels)
  ∧ (stdout_handler configurations = stderr_handler configurations →
     outputChannels ≠ [] → length (trace run) = 1%nat).
Proof.
  intros Hdefined. simpl. unfold onExitRealtime.
  destruct (endRealtimeLoop_calls outputChannels [] Hdefined)
    as (codes & t & -> & Hcount & Hevents). simpl.
  assert (∀ name, name ∈ outputChannels.*1 →
          endRealtimeCalls configurations (handler configurations name) t
          = 1%nat) as Honce.
  { intros name Hin. rewrite Hcount.
    rewrite decide_False by (intros H; by apply elem_of_nil in H).
    rewrite decide_True; [done |]. by apply list_elem_of_fmap_2. }
  split; [by exists codes |]. split; [exact Honce |]. split.
  - by apply Forall_forall.
  - intros Hsame Hne.
    destruct outputChannels as [| [name0 channel0] rest]; [done |].
    rewrite <- (Honce name0) by apply list_elem_of_here.
    symmetry. apply endRealtimeCalls_all.
    eapply Forall_impl; [exact Hevents |].
    intros e (n & c & -> & _). simpl. apply bool_decide_eq_true_2.
    destruct n, name0; simpl; congruence.
Qed.

End RealtimeExit.

Lemma endRealtime_called_once_witness :
  Task.trace (Executor.onExitRealtime shared_handlers shared_channels (Some 0))
  = [Executor.EvEndRealtime Executor.stdout 0%nat (Some 0)]
  ∧ length (Task.trace (Executor.onExitRealtime shared_handlers
                          shared_channels (Some 0))) = 1%nat.
Proof.
  split; [reflexivity |].
  apply (endRealtime_called_once shared_handlers (Some 0) shared_channels).
  - intros name channel Hin.
    apply elem_of_cons in Hin as [[= -> ->] | Hin]; [done |].
    apply list_elem_of_singleton in Hin as [= -> ->]. done.
  - reflexivity.
  - discriminate.
Defined.

(** ** Realtime output: one chunk at a time *)
Section RealtimeChunks.
Import Task Executor.

Variable outputChannels : OutputChannels.

(** Pausing a stream changes neither what [read()] returns nor what it
    leaves in the buffer. *)
Lemma read_setPaused b r :
  read (setPaused b r) = ((read r).1, setPaused b (read r).2).
Proof. unfold read. simpl. by destruct (chunks r). Qed.

(** The handler from its start to its [await], on a stream with a channel:
    both streams are paused, then the chunk is read, then it is handed to
    the channel; the streams stay paused. *)
Lemma handleNewOutputContent_dispatch name channel st :
  channelOf outputChannels name = Some channel →
  let content := default "" (read (streamOf st name)).1 in
  let st' := (handleNewOutputContent outputChannels name st).2 in
  (handleNewOutputContent outputChannels name st).1 = Pending
  ∧ rt_trace st' = rt_trace st ++ chunkDispatched name channel content
  ∧ rt_in_progress st' = rt_in_progress st ++ [(name, content)]
  ∧ bothPaused st'.
Proof.
  intros Hchannel. unfold handleNewOutputContent. rewrite Hchannel.
  destruct name; simpl; rewrite read_setPaused; simpl;
    by rewrite <- !app_assoc.
Qed.

(** The handler on a stream without a channel: it throws after pausing and
    reading, and the streams stay paused. *)
Lemma handleNewOutputContent_undefined name st :
  channelOf outputChannels name = None →
  let content := default "" (read (streamOf st name)).1 in
  let st' := (handleNewOutputContent outputChannels name st).2 in
  rt_trace st'
  = rt_trace st ++ [EvPause stdout; EvPause stderr; EvRead name content]
  ∧ rt_in_progress st' = rt_in_progress st
  ∧ bothPaused st'.
Proof.
  intros Hchannel. unfold handleNewOutputContent. rewrite Hchannel.
  destruct name; simpl; rewrite read_setPaused; simpl;
    by rewrite <- !app_assoc.
Qed.

(** The handler after its [await]: the streams are resumed, and only then. *)
Lemma handleNewOutputContentResume_trace name content st :
  rt_trace (handleNewOutputContentResume name content st)
  = rt_trace st ++ [EvHandleRealtimeSettled name content;
                    EvResume stdout; EvResume stderr].
Proof. simpl. by rewrite <- app_assoc. Qed.

Lemma pushChunk_unchanged name chunk st :
  rt_in_progress (pushChunk name chunk st) = rt_in_progress st
  ∧ rt_trace (pushChunk name chunk st) = rt_trace st
  ∧ (bothPaused st → bothPaused (pushChunk name chunk st)).
Proof. by destruct name. Qed.

Lemma bothPaused_streamOf st name :
  bothPaused st → paused (streamOf st name) = true.
Proof. intros [? ?]. by destruct name. Qed.

Lemma step_oneChunkAtATime st st' :
  step outputChannels st st' →
  oneChunkAtATime outputChannels st → oneChunkAtATime outputChannels st'.
Proof.
  intros Hstep (handled & Hinv). destruct Hstep as [name chunk st | name st Hname Hflowing | name content st Hin].
  - destruct (pushChunk_unchanged name chunk st) as (Hprogress & Htrace & Hpaused).
    exists handled. rewrite Hprogress, Htrace.
    destruct Hinv as [Hidle | [(n & ch & c & ? & ? & ? & ?) | (n & c & ? & ? & ? & ?)]].
    + by left.
    + right; left. exists n, ch, c. auto.
    + right; right. exists n, c. auto.
  - destruct Hinv as [[Hidle Htrace] | [(n & ch & c & _ & Hp & _) | (n & c & _ & Hp & _)]].
    + exists handled.
      destruct (channelOf outputChannels name) as [channel |] eqn:Hchannel.
      * destruct (handleNewOutputContent_dispatch name channel st Hchannel)
          as (_ & Htrace' & Hprogress' & Hpaused').
        right; left. eexists name, channel, _.
        rewrite Hprogress', Htrace', Hidle, Htrace. done.
      * destruct (handleNewOutputContent_undefined name st Hchannel)
          as (Htrace' & Hprogress' & Hpaused').
        right; right. eexists name, _.
        rewrite Hprogress', Htrace', Hidle, Htrace. done.
    + apply (bothPaused_streamOf _ name) in Hp. congruence.
    + apply (bothPaused_streamOf _ name) in Hp. congruence.
  - destruct Hinv as [[Hidle _] | [(n & ch & c & Hprogress & _ & _ & Htrace) | (n & c & Hidle & _)]].
    + rewrite Hidle in Hin. by apply elem_of_nil in Hin.
    + rewrite Hprogress in Hin. apply list_elem_of_singleton in Hin as [= -> ->].
      exists (handled ++ [(n, ch, c)]). left.
      rewrite handleNewOutputContentResume_trace, Htrace. split.
      * simpl. rewrite Hprogress. simpl. by rewrite decide_True.
      * rewrite fmap_app, concat_app. simpl.
        by rewrite <- !app_assoc.
    + rewrite Hidle in Hin. by apply elem_of_nil in Hin.
Qed.


End RealtimeChunks.


(** ** The cache of preparsed parsing processes *)
Section PreparsedCache.
Import Executor Plugin.

(** C8: an execution from the command palette leaves the cache of preparsed
    parsing processes empty, whatever it held before and whatever the
    parsing process says: the cached process of the command is used when
    there is one, a new one is created otherwise, and a later execution
    finds nothing in the cache. The first version of the plugin empties its
    table of preparsed configurations in the same way. *)
Theorem palette_execution_clears_cache (c c' : PaletteCommand)
    (plugin : SC_Plugin) :
  let id := getId (t_shell_command c) in
  let executed := checkCallback c false plugin in
  let plugin' := executed.1.2 in
  cached_parsing_processes plugin' = ∅
  ∧ executed.1.1 = None
  ∧ executed.2
    = EvPaletteProcess id ::
      match cachedParsingProcess plugin id with
      | Some cached =>
          if process cached
          then [EvDoPreactionsAndExecuteShellCommand id cached true]
          else [EvPaletteDisplayErrorMessages id]
      | None =>
          let created := createParsingProcess (t_shell_command c) in
          if process created
          then [EvDoPreactionsAndExecuteShellCommand id created false]
          else [EvPaletteDisplayErrorMessages id]
      end
  ∧ cachedParsingProcess plugin' (getId (t_shell_command c')) = None
  ∧ (checkCallback c' false plugin').2 = executor c' None
  ∧ ∀ parse command_id configuration legacy,
      LegacyPlugin.preparsed_shell_command_configurations
        (LegacyPlugin.checkCallback parse command_id configuration false
           legacy).1.2 = ∅.
Proof.
  simpl. split; [done |]. split; [done |]. split.
  { unfold executor. by destruct (cachedParsingProcess plugin _). }
  split; [unfold cachedParsingProcess; simpl; by rewrite lookup_empty |].
  split; [| done].
  unfold cachedParsingProcess. simpl. by rewrite lookup_empty.
Qed.

(** Opening the palette fills the cache; executing empties it again. *)
Lemma palette_preview_then_execution :
  let opened := (checkCallback echo_palette true plugin_with_cache).1.2 in
  cachedParsingProcess opened "0" = Some parsing_echo
  ∧ cached_parsing_processes (checkCallback echo_palette false opened).1.2 = ∅
  ∧ (checkCallback echo_palette false opened).2
    = [EvPaletteProcess "0";
       EvDoPreactionsAndExecuteShellCommand "0" parsing_echo true].
Proof. by vm_compute. Qed.

End PreparsedCache.

(** ** The default value of a prompt field *)
Section DefaultValue.
Import PromptField.

Variable parseVariables : string → ParsingResult.

Lemma valueHasChanged_value f :
  getValue (valueHasChanged parseVariables f) = getValue f.
Proof.
  unfold valueHasChanged.
  by destruct (negb (succeeded (parseVariables (getValue f)))).
Qed.

(** C10: after [applyDefaultValue], the text field holds the unparsed
    default value when its parsing failed, and the parsed content when it
    succeeded; with a parsing result as [parseVariables] builds it, the
    field holds one of the two. *)
Theorem applyDefaultValue_populates (f : PromptField) :
  let template := default_value (configuration f) in
  let parsing_result := parseVariables template in
  let value := getValue (applyDefaultValue parseVariables f) in
  (succeeded parsing_result = false → value = template)
  ∧ (∀ content, succeeded parsing_result = true →
     parsed_content parsing_result = Some content → value = content)
  ∧ (wellFormed parsing_result →
     value = template ∨ parsed_content parsing_result = Some value).
Proof.
  simpl. unfold applyDefaultValue. rewrite valueHasChanged_value.
  destruct (succeeded (parseVariables (default_value (configuration f))))
    eqn:Hsucceeded; simpl.
  - split; [done |]. split.
    + by intros content _ ->.
    + intros Hwf. destruct (Hwf Hsucceeded) as [content Hcontent].
      right. by rewrite Hcontent.
  - split; [done |]. split; [done | by left].
Qed.

End DefaultValue.

Lemma applyDefaultValue_populates_witness :
  PromptField.getValue
    (PromptField.applyDefaultValue sample_parseVariables
       (sample_field "{{unknown}}")) = "{{unknown}}"
  ∧ PromptField.getValue
      (PromptField.applyDefaultValue sample_parseVariables
         (sample_field "{{title}}")) = "My Note".
Proof.
  split.
  - apply (proj1 (applyDefaultValue_populates sample_parseVariables
                    (sample_field "{{unknown}}"))).
    reflexivity.
  - apply (proj1 (proj2 (applyDefaultValue_populates sample_parseVariables
                           (sample_field "{{title}}")))); reflexivity.
Defined.

(** * Further properties *)

(** ** Order and failures in the pipeline *)
Section PipelineOrder.
Import Task Executor.

Variables (env : Env) (t_shell_command : TShellCommand).

(** Chaining performs a prefix of the preactions, in their order, and the
    chain resolves only when all of them were performed. *)
Lemma chain_performs preactions : ∀ pipeline,
  ∃ k,
    trace (chain pipeline preactions)
    = trace pipeline
      ++ (EvPreactionPerform <$> take k (preaction_type <$> preactions))
    ∧ (∀ b, outcome (chain pipeline preactions) = Fulfilled b →
       k = length preactions).
Proof.
  induction preactions as [| p ps IH]; intros pipeline.
  - exists 0%nat. split; [by rewrite app_nil_r | done].
  - destruct pipeline as [[b | message |] t].
    + rewrite chain_fulfilled.
      destruct (IH (perform p, t ++ [EvPreactionPerform (preaction_type p)]))
        as (k & Htrace & Hall).
      exists (S k). split.
      * rewrite Htrace. simpl. by rewrite <- app_assoc.
      * intros b' Hb. by rewrite (Hall b' Hb).
    + exists 0%nat. change (chain (Rejected message, t) (p :: ps))
        with (chain (Rejected message, t) ps).
      rewrite chain_rejected. split; [by rewrite app_nil_r | done].
    + exists 0%nat. change (chain (Pending, t) (p :: ps))
        with (chain (Pending, t) ps).
      rewrite chain_pending. split; [by rewrite app_nil_r | done].
Qed.

(** The pipeline opens the confirmation modal first, when configured, and
    then performs a prefix of the preactions. *)
Lemma preaction_pipeline_shape :
  ∃ k,
    trace (preaction_pipeline env t_shell_command)
    = (if confirm_execution t_shell_command
       then [EvConfirmationModalOpen (getAliasOrShellCommand t_shell_command)]
       else [])
      ++ (EvPreactionPerform
            <$> take k (preaction_type <$> getPreactions t_shell_command))
    ∧ (∀ b, outcome (preaction_pipeline env t_shell_command) = Fulfilled b →
       k = length (getPreactions t_shell_command)).
Proof.
  unfold preaction_pipeline.
  destruct (confirm_execution t_shell_command).
  - destruct (chain_performs (getPreactions t_shell_command)
                (ret true >> askConfirmation env t_shell_command))
      as (k & Htrace & Hall).
    exists k. split; [| done]. rewrite Htrace. f_equal.
    unfold askConfirmation.
    by destruct (confirmation_modal_promise env) as [[|] | |].
  - destruct (chain_performs (getPreactions t_shell_command) (ret true))
      as (k & Htrace & Hall).
    exists k. by split.
Qed.

(** What a run does once the first parsing phase is over. *)
Lemma run_with_parsing_process parsing_process overriding :
  doPreactionsAndExecuteShellCommand env t_shell_command
    (Some parsing_process) overriding
  = let* can_execute := preaction_pipeline env t_shell_command in
    afterPreactions env t_shell_command parsing_process overriding can_execute.
Proof.
  unfold doPreactionsAndExecuteShellCommand. simpl.
  by destruct (let* can_execute := preaction_pipeline env t_shell_command in
               afterPreactions env t_shell_command parsing_process overriding
                 can_execute).
Qed.

Lemma run_without_parsing_process overriding :
  doPreactionsAndExecuteShellCommand env t_shell_command None overriding
  = if process (createParsingProcess t_shell_command) then
      emit EvProcess >>
      doPreactionsAndExecuteShellCommand env t_shell_command
        (Some (createParsingProcess t_shell_command)) overriding
    else (Fulfilled (), [EvProcess; EvDisplayErrorMessages]).
Proof.
  rewrite run_with_parsing_process.
  unfold doPreactionsAndExecuteShellCommand.
  destruct (process (createParsingProcess t_shell_command)); [| done].
  simpl.
  by destruct (let* can_execute := preaction_pipeline env t_shell_command in
               afterPreactions env t_shell_command
                 (createParsingProcess t_shell_command) overriding can_execute).
Qed.

End PipelineOrder.

(** Closes a goal [Forall P t] on a listed trace [t] when [P] computes. *)
Ltac all_events := repeat first [exact I | constructor].

(** Goes through the events of a listed trace that [H] says one is in. *)
Ltac member_cases H :=
  repeat (apply elem_of_cons in H as [H | H]; [try discriminate H |]);
  try (by apply elem_of_nil in H).

(** Shows that a listed trace holds an event. *)
Ltac in_trace :=
  repeat first [apply list_elem_of_here | apply list_elem_of_further].

(** ** What [executeShellCommand] does and does not do *)
Section Execution.
Import Task Executor.

Variables (env : Env) (t_shell_command : TShellCommand).

(** Splits a run of [executeShellCommand] into its paths: the three
    validations, the spawn outcomes, and the shape of the child process. *)
Ltac execution_paths r :=
  unfold executeShellCommand, hookChildProcess;
  destruct (String.length (JS.trim (unwrappedShellCommandContent r)) =? 0)%nat
    eqn:Hblank;
  [| destruct (existsSync (host env)
                 (getWorkingDirectory (host env) (settings env))) eqn:Hexists;
     [destruct (isDirectory (host env)
                  (getWorkingDirectory (host env) (settings env))) eqn:Hdir;
      [destruct ((0 <? String.length (environment_variable_path_augmentation r))%nat
                 && Shell.supportsPathAugmentation (getShell t_shell_command))
         eqn:Haugment;
       (destruct (spawnChildProcess env (wrappedShellCommandContent r)
                    (getWorkingDirectory (host env) (settings env)))
          as [message | | [stdin_present [out |] [err |]]] eqn:Hspawn;
        [destruct (matches_ENAMETOOLONG message) eqn:Hmatch | |
         destruct (stdinContent r) as [content |] eqn:Hstdin;
         [destruct stdin_present |];
         destruct (getOutputHandlingMode t_shell_command) eqn:Hmode;
         destruct (execution_notification_mode (settings env)) eqn:Hnotify
         | destruct (stdinContent r) as [content |] eqn:Hstdin;
           [destruct stdin_present |]
         | destruct (stdinContent r) as [content |] eqn:Hstdin;
           [destruct stdin_present |]
         | destruct (stdinContent r) as [content |] eqn:Hstdin;
           [destruct stdin_present |]])
      |]
     |]];
  simpl;
  try match goal with
      | H : matches_ENAMETOOLONG _ = _ |- _ => rewrite H; simpl
      end.

Lemma executeShellCommand_events r overriding :
  Forall executionEvent
    (trace (executeShellCommand env t_shell_command r overriding)).
Proof. execution_paths r; all_events. Qed.

Lemma isDirectory_existsSync h p :
  isDirectory h p = true → existsSync h p = true.
Proof. unfold isDirectory, existsSync. by destruct (fs h !! p). Qed.

Lemma trim_nonempty_length s :
  JS.trim s ≠ "" → (String.length (JS.trim s) =? 0)%nat = false.
Proof. intros Hne. by destruct (JS.trim s). Qed.

(** A child process is asked for at most once, and only with the wrapped
    command, in the resolved working directory, after that directory has
    been found to be a directory and the command not to be blank. *)
Theorem spawn_only_after_validation r overriding :
  let run := executeShellCommand env t_shell_command r overriding in
  let working_directory := getWorkingDirectory (host env) (settings env) in
  (spawnCount (trace run) <= 1)%nat
  ∧ ∀ command directory,
      EvSpawnChildProcess command directory ∈ trace run →
      command = wrappedShellCommandContent r
      ∧ directory = working_directory
      ∧ isDirectory (host env) working_directory = true
      ∧ JS.trim (unwrappedShellCommandContent r) ≠ "".
Proof.
  simpl. split.
  - execution_paths r; unfold spawnCount; simpl; lia.
  - intros command directory Hin.
    assert ((String.length (JS.trim (unwrappedShellCommandContent r)) =? 0)%nat
            = false → JS.trim (unwrappedShellCommandContent r) ≠ "") as Hne.
    { intros Hlen Heq. by rewrite Heq in Hlen. }
    revert Hin. execution_paths r; intros Hin; member_cases Hin;
      injection Hin as -> ->; auto.
Qed.

(** Any message in which [spawn ENAMETOOLONG] occurs matches the pattern
    that the handler of spawn exceptions looks for. *)
Lemma matches_ENAMETOOLONG_occurs message :
  occursIn "spawn ENAMETOOLONG" message → matches_ENAMETOOLONG message = true.
Proof.
  intros (before & after & ->).
  induction before as [| c before IH].
  - destruct after; by vm_compute.
  - rewrite append_cons. simpl. rewrite IH. apply orb_true_r.
Qed.

(** A spawn exception that says [spawn ENAMETOOLONG] is turned into an
    error notice that tells the length of the command, and the execution
    ends normally. Any exception that does not match is thrown on, without
    a notice. *)
Theorem spawn_exception_handling r overriding message :
  let working_directory := getWorkingDirectory (host env) (settings env) in
  let run := executeShellCommand env t_shell_command r overriding in
  JS.trim (unwrappedShellCommandContent r) ≠ "" →
  isDirectory (host env) working_directory = true →
  spawnChildProcess env (wrappedShellCommandContent r) working_directory
  = SpawnThrows message →
  (occursIn "spawn ENAMETOOLONG" message →
   outcome run = Fulfilled ()
   ∧ last (trace run)
     = Some (EvNewError
               ("Shell command execution failed because it's too long: "
                +:+ JS.String_of_number
                      (Z.of_nat (String.length (wrappedShellCommandContent r)))
                +:+ " characters. (Unfortunately the max limit is unknown).")))
  ∧ (matches_ENAMETOOLONG message = false →
     outcome run = Rejected message
     ∧ ∀ notice, EvNewError notice ∉ trace run).
Proof.
  simpl. intros Hcontent Hdir Hspawn.
  unfold executeShellCommand.
  rewrite (trim_nonempty_length _ Hcontent), (isDirectory_existsSync _ _ Hdir),
    Hdir, Hspawn.
  split.
  - intros Hoccurs. apply matches_ENAMETOOLONG_occurs in Hoccurs.
    destruct ((0 <? _)%nat && _); simpl; by rewrite Hoccurs.
  - intros Hmatch.
    destruct ((0 <? _)%nat && _); simpl; rewrite Hmatch; simpl;
      (split; [done |]); intros notice Hin; member_cases Hin.
Qed.

(** Standard input receives the parsed stdin content and nothing else, and
    is closed after the write. When there is content but the child process
    has no standard input stream, the execution is rejected before any
    handler is attached to the child process. *)
Theorem stdin_written_as_parsed r overriding :
  let working_directory := getWorkingDirectory (host env) (settings env) in
  let run := executeShellCommand env t_shell_command r overriding in
  (∀ content, EvStdinWrite content ∈ trace run →
     stdinContent r = Some content ∧ EvStdinEnd ∈ trace run)
  ∧ (EvStdinEnd ∈ trace run → ∃ content, EvStdinWrite content ∈ trace run)
  ∧ (∀ child_process content,
       JS.trim (unwrappedShellCommandContent r) ≠ "" →
       isDirectory (host env) working_directory = true →
       spawnChildProcess env (wrappedShellCommandContent r) working_directory
       = Spawned child_process →
       stdinContent r = Some content →
       has_stdin child_process = false →
       outcome run
       = Rejected "Shell command execution process does not have a standard input stream (stdin)."
       ∧ last (trace run)
         = Some (EvSpawnChildProcess (wrappedShellCommandContent r)
                   working_directory)).
Proof.
  simpl. split; [| split].
  - execution_paths r; intros written Hin; member_cases Hin;
      injection Hin as ->; (split; [done | in_trace]).
  - execution_paths r; intros Hin; member_cases Hin; eexists; in_trace.
  - intros child_process content Hcontent Hdir Hspawn Hstdin Hmissing.
    unfold executeShellCommand, hookChildProcess.
    rewrite (trim_nonempty_length _ Hcontent),
      (isDirectory_existsSync _ _ Hdir), Hdir, Hspawn, Hstdin, Hmissing.
    destruct ((0 <? _)%nat && _); by vm_compute.
Qed.

(** Output handling is attached in the mode of the shell command and in no
    other, with the overriding channel on both streams when one is given,
    and with the handlers of the shell command otherwise. *)
Theorem output_handling_attached r overriding handlers :
  let run := executeShellCommand env t_shell_command r overriding in
  let expected :=
    match overriding with
    | Some code =>
        if bool_decide (code = "") then getOutputHandlers t_shell_command
        else {| stdout_handler := code; stderr_handler := code |}
    | None => getOutputHandlers t_shell_command
    end in
  (EvHandleBufferedOutput handlers ∈ trace run →
   getOutputHandlingMode t_shell_command = buffered ∧ handlers = expected)
  ∧ (EvHandleRealtimeOutput handlers ∈ trace run →
     getOutputHandlingMode t_shell_command = realtime ∧ handlers = expected).
Proof.
  simpl. split.
  - execution_paths r; intros Hin; member_cases Hin; by injection Hin as ->.
  - execution_paths r; intros Hin; member_cases Hin; by injection Hin as ->.
Qed.

End Execution.

Lemma spawn_only_after_validation_witness :
  isDirectory posix_host "/home/user/vault" = true
  ∧ JS.trim (Executor.unwrappedShellCommandContent echo_result) ≠ "".
Proof.
  destruct (spawn_only_after_validation (sample_env "" (Task.Fulfilled true))
              (echo_command false []) echo_result None) as [_ Hspawn].
  destruct (Hspawn "echo hello" "/home/user/vault") as (_ & _ & Hdir & Hcontent).
  - vm_compute. apply list_elem_of_here.
  - split; [exact Hdir | exact Hcontent].
Defined.

Lemma spawn_exception_handling_witness :
  Task.outcome
    (Executor.executeShellCommand
       (env_spawning (Executor.SpawnThrows "Error: spawn ENAMETOOLONG"))
       (echo_command false []) echo_result None)
  = Task.Fulfilled ()
  ∧ last (Task.trace
            (Executor.executeShellCommand
               (env_spawning (Executor.SpawnThrows "Error: spawn ENAMETOOLONG"))
               (echo_command false []) echo_result None))
    = Some (Executor.EvNewError
              "Shell command execution failed because it's too long: 10 characters. (Unfortunately the max limit is unknown).").
Proof.
  apply (spawn_exception_handling
           (env_spawning (Executor.SpawnThrows "Error: spawn ENAMETOOLONG"))
           (echo_command false []) echo_result None
           "Error: spawn ENAMETOOLONG").
  - discriminate.
  - reflexivity.
  - reflexivity.
  - by exists "Error: ", "".
Defined.

Lemma stdin_written_as_parsed_witness :
  Task.outcome
    (Executor.executeShellCommand
       (env_spawning (Executor.Spawned child_without_stdin))
       (echo_command false []) result_with_stdin None)
  = Task.Rejected "Shell command execution process does not have a standard input stream (stdin)."
  ∧ last (Task.trace
            (Executor.executeShellCommand
               (env_spawning (Executor.Spawned child_without_stdin))
               (echo_command false []) result_with_stdin None))
    = Some (Executor.EvSpawnChildProcess "cat" "/home/user/vault").
Proof.
  destruct (stdin_written_as_parsed
              (env_spawning (Executor.Spawned child_without_stdin))
              (echo_command false []) result_with_stdin None)
    as (_ & _ & Hmissing).
  apply (Hmissing child_without_stdin "input");
    [discriminate | reflexivity | reflexivity | reflexivity | reflexivity].
Defined.

Lemma output_handling_attached_witness :
  Executor.getOutputHandlingMode (echo_command false []) = Executor.buffered
  ∧ {| Executor.stdout_handler := "modal"; Executor.stderr_handler := "modal" |}
    = {| Executor.stdout_handler := "modal"; Executor.stderr_handler := "modal" |}.
Proof.
  apply (proj1 (output_handling_attached
                  (sample_env "" (Task.Fulfilled true))
                  (echo_command false []) echo_result (Some "modal")
                  {| Executor.stdout_handler := "modal";
                     Executor.stderr_handler := "modal" |})).
  vm_compute. in_trace.
Defined.

(** ** Runs of the whole pipeline *)
Section PipelineRuns.
Import Task Executor.

Variables (env : Env) (t_shell_command : TShellCommand).

Lemma preactions_in_order_with_process parsing_process overriding :
  ∃ k before after,
    trace (doPreactionsAndExecuteShellCommand env t_shell_command
             (Some parsing_process) overriding)
    = before
      ++ (EvPreactionPerform
            <$> take k (preaction_type <$> getPreactions t_shell_command))
      ++ after
    ∧ Forall startEvent before
    ∧ (∀ type, EvPreactionPerform type ∉ after)
    ∧ (after ≠ [] →
       k = length (getPreactions t_shell_command)
       ∧ head after = Some EvProcessRest).
Proof.
  rewrite run_with_parsing_process, trace_bind.
  destruct (preaction_pipeline_shape env t_shell_command) as (k & -> & Hall).
  exists k,
    (if confirm_execution t_shell_command
     then [EvConfirmationModalOpen (getAliasOrShellCommand t_shell_command)]
     else []).
  assert (Forall startEvent
            (if confirm_execution t_shell_command
             then [EvConfirmationModalOpen
                     (getAliasOrShellCommand t_shell_command)]
             else [])) as Hstart.
  { destruct (confirm_execution t_shell_command); repeat constructor. }
  destruct (outcome (preaction_pipeline env t_shell_command))
    as [[|] | |] eqn:Houtcome.
  - exists (trace (afterPreactions env t_shell_command parsing_process
                     overriding true)).
    split; [by rewrite <- app_assoc |]. split; [done |].
    unfold afterPreactions. rewrite trace_bind. simpl. split.
    + intros type Hin. apply elem_of_cons in Hin as [Hin | Hin]; [done |].
      destruct (processRest parsing_process).
      * pose proof (executeShellCommand_events env t_shell_command
                      (makeShellCommandParsingResult t_shell_command
                         (getParsingResults parsing_process)) overriding)
          as Hevents.
        rewrite Forall_forall in Hevents. by apply Hevents in Hin.
      * apply list_elem_of_singleton in Hin. discriminate Hin.
    + intros _. split; [by apply (Hall true) | done].
  - exists []. simpl. split; [by rewrite !app_nil_r |]. split; [done |].
    split; [intros type Hin; by apply elem_of_nil in Hin | done].
  - exists []. split; [by rewrite !app_nil_r |]. split; [done |].
    split; [intros type Hin; by apply elem_of_nil in Hin | done].
  - exists []. split; [by rewrite !app_nil_r |]. split; [done |].
    split; [intros type Hin; by apply elem_of_nil in Hin | done].
Qed.

(** In every run the preactions are performed one after the other in the
    order in which the shell command lists them, after the first parsing
    phase and the confirmation modal. Whatever follows them starts with
    [processRest()], and follows only when every preaction was performed. *)
Theorem preactions_run_in_declared_order parsing_process overriding :
  ∃ k before after,
    trace (doPreactionsAndExecuteShellCommand env t_shell_command
             parsing_process overriding)
    = before
      ++ (EvPreactionPerform
            <$> take k (preaction_type <$> getPreactions t_shell_command))
      ++ after
    ∧ Forall startEvent before
    ∧ (∀ type, EvPreactionPerform type ∉ after)
    ∧ (after ≠ [] →
       k = length (getPreactions t_shell_command)
       ∧ head after = Some EvProcessRest).
Proof.
  destruct parsing_process as [parsing_process |].
  - apply preactions_in_order_with_process.
  - rewrite run_without_parsing_process.
    destruct (process (createParsingProcess t_shell_command)).
    + destruct (preactions_in_order_with_process
                  (createParsingProcess t_shell_command) overriding)
        as (k & before & after & Htrace & Hstart & Hperform & Hafter).
      exists k, (EvProcess :: before), after.
      rewrite trace_bind. simpl. rewrite Htrace.
      split; [done |]. split; [by constructor | done].
    + exists 0%nat, [EvProcess; EvDisplayErrorMessages], [].
      split; [done |]. split; [repeat constructor |].
      split; [intros type Hin; by apply elem_of_nil in Hin | done].
Qed.

Lemma preaction_pipeline_quiet :
  ¬ spawns (trace (preaction_pipeline env t_shell_command))
  ∧ (∀ message, EvNewError message ∉ trace (preaction_pipeline env t_shell_command))
  ∧ (EvProcessRest ∉ trace (preaction_pipeline env t_shell_command))
  ∧ (EvDisplayErrorMessages ∉ trace (preaction_pipeline env t_shell_command)).
Proof.
  destruct (preaction_pipeline_shape env t_shell_command) as (k & -> & _).
  assert (∀ e, e ∈ (if confirm_execution t_shell_command
                    then [EvConfirmationModalOpen
                            (getAliasOrShellCommand t_shell_command)]
                    else [])
                   ++ (EvPreactionPerform
                         <$> take k (preaction_type
                                       <$> getPreactions t_shell_command)) →
          (∃ text, e = EvConfirmationModalOpen text)
          ∨ ∃ type, e = EvPreactionPerform type) as Hkinds.
  { intros e Hin. apply elem_of_app in Hin as [Hin | Hin].
    - destruct (confirm_execution t_shell_command).
      + apply list_elem_of_singleton in Hin. left. eauto.
      + by apply elem_of_nil in Hin.
    - apply list_elem_of_fmap in Hin as (type & -> & _). right. eauto. }
  split; [| split; [| split]].
  - intros (command & wd & Hin).
    apply Hkinds in Hin as [[? ?] | [? ?]]; discriminate.
  - intros message Hin. apply Hkinds in Hin as [[? ?] | [? ?]]; discriminate.
  - intros Hin. apply Hkinds in Hin as [[? ?] | [? ?]]; discriminate.
  - intros Hin. apply Hkinds in Hin as [[? ?] | [? ?]]; discriminate.
Qed.

(** A parsing failure abandons the run behind a display of the parsing
    errors. When the first phase fails, nothing else happens: no
    confirmation, no preaction. When [processRest()] fails, no child
    process is asked for and no error notice of the executor is shown; the
    display of the parsing errors is the last thing that happens. *)
Theorem parsing_failure_abandons overriding :
  (process (createParsingProcess t_shell_command) = false →
   doPreactionsAndExecuteShellCommand env t_shell_command None overriding
   = (Fulfilled (), [EvProcess; EvDisplayErrorMessages]))
  ∧ ∀ parsing_process,
      processRest parsing_process = false →
      let t := trace (doPreactionsAndExecuteShellCommand env t_shell_command
                        (Some parsing_process) overriding) in
      ¬ spawns t
      ∧ (∀ message, EvNewError message ∉ t)
      ∧ (EvProcessRest ∈ t →
         ∃ before, t = before ++ [EvProcessRest; EvDisplayErrorMessages]
                   ∧ EvDisplayErrorMessages ∉ before).
Proof.
  split.
  { intros Hfailed. rewrite run_without_parsing_process. by rewrite Hfailed. }
  intros parsing_process Hfailed. simpl.
  rewrite run_with_parsing_process, trace_bind.
  destruct preaction_pipeline_quiet as (Hspawn & Hnotice & Hrest & Hdisplay).
  destruct (outcome (preaction_pipeline env t_shell_command)) as [[|] | |].
  - unfold afterPreactions. rewrite Hfailed. simpl.
    split; [| split].
    + intros (command & wd & Hin). apply elem_of_app in Hin as [Hin | Hin].
      * apply Hspawn. by exists command, wd.
      * member_cases Hin.
    + intros message Hin. apply elem_of_app in Hin as [Hin | Hin].
      * by apply (Hnotice message).
      * member_cases Hin.
    + intros _. by eexists.
  - simpl. rewrite app_nil_r. split; [done |]. split; [done |].
    intros Hin. by destruct Hrest.
  - split; [done |]. split; [done |]. intros Hin. by destruct Hrest.
  - split; [done |]. split; [done |]. intros Hin. by destruct Hrest.
Qed.

(** The emptiness check looks at the shell command itself, not at the
    wrapped one: when the parsed shell command is blank, the run ends at the
    notice about an empty shell command, whatever wrapper is configured, and
    no child process is asked for. *)
Theorem wrapper_cannot_fill_blank_command parsing_process overriding :
  processRest parsing_process = true →
  JS.trim (shellCommandContent (getParsingResults parsing_process)) = "" →
  let t := trace (doPreactionsAndExecuteShellCommand env t_shell_command
                    (Some parsing_process) overriding) in
  ¬ spawns t
  ∧ (EvProcessRest ∈ t →
     ∃ before,
       t = before
           ++ [EvProcessRest;
               EvNewError (getErrorMessageForEmptyShellCommand (host env)
                             t_shell_command)]).
Proof.
  intros Hparsed Hblank. simpl.
  rewrite run_with_parsing_process, trace_bind.
  destruct preaction_pipeline_quiet as (Hspawn & _ & Hrest & _).
  assert (trace (afterPreactions env t_shell_command parsing_process
                   overriding true)
          = [EvProcessRest;
             EvNewError (getErrorMessageForEmptyShellCommand (host env)
                           t_shell_command)]) as Hafter.
  { unfold afterPreactions, executeShellCommand. rewrite Hparsed. simpl.
    by rewrite Hblank. }
  destruct (outcome (preaction_pipeline env t_shell_command)) as [[|] | |].
  - rewrite Hafter. split; [| intros _; by eexists].
    intros (command & wd & Hin). apply elem_of_app in Hin as [Hin | Hin].
    + apply Hspawn. by exists command, wd.
    + member_cases Hin.
  - simpl. rewrite app_nil_r. split; [done |]. intros Hin. by destruct Hrest.
  - split; [done |]. intros Hin. by destruct Hrest.
  - split; [done |]. intros Hin. by destruct Hrest.
Qed.

End PipelineRuns.

Lemma parsing_failure_abandons_witness :
  Task.trace
    (Executor.doPreactionsAndExecuteShellCommand
       (sample_env "" (Task.Fulfilled true))
       (echo_command false [submitted_prompt])
       (Some parsing_rest_fails) None)
  = [Executor.EvPreactionPerform "prompt (submitted)"; Executor.EvProcessRest;
     Executor.EvDisplayErrorMessages]
  ∧ ¬ spawns
        (Task.trace
           (Executor.doPreactionsAndExecuteShellCommand
              (sample_env "" (Task.Fulfilled true))
              (echo_command false [submitted_prompt])
              (Some parsing_rest_fails) None)).
Proof.
  split; [reflexivity |].
  apply (proj2 (parsing_failure_abandons
                  (sample_env "" (Task.Fulfilled true))
                  (echo_command false [submitted_prompt]) None)
           parsing_rest_fails eq_refl).
Defined.

Lemma wrapper_cannot_fill_blank_command_witness :
  ¬ spawns
      (Task.trace
         (Executor.doPreactionsAndExecuteShellCommand
            (sample_env "" (Task.Fulfilled true))
            (echo_command false [])
            (Some parsing_blank_wrapped) None)).
Proof.
  apply (wrapper_cannot_fill_blank_command
           (sample_env "" (Task.Fulfilled true)) (echo_command false [])
           parsing_blank_wrapped None eq_refl eq_refl).
Defined.

(** ** The working directory of the child process *)
Section ChildWorkingDirectory.

Lemma posix_normalize_absolute p :
  Path.posix_isAbsolute p = true →
  Path.posix_isAbsolute (Path.posix_normalize p) = true.
Proof.
  destruct p as [| c p]; [done |]. intros Habsolute.
  unfold Path.posix_normalize. rewrite Habsolute.
  by destruct (Path.join_segments _).
Qed.

(** Joining anything to an absolute POSIX path gives an absolute path. *)
Lemma posix_join_absolute a b :
  Path.posix_isAbsolute a = true →
  Path.posix_isAbsolute (Path.posix_join a b) = true.
Proof.
  destruct a as [| c a]; [done |]. intros Habsolute.
  unfold Path.posix_join. destruct b as [| c' b].
  - by apply posix_normalize_absolute.
  - by apply posix_normalize_absolute.
Qed.

(** With a path module whose [join] keeps an absolute first argument
    absolute, and a vault at an absolute location, the child process always
    gets an absolute working directory: a relative setting is anchored at
    the vault, never left to the directory of the host application. *)
Theorem child_working_directory_absolute (h : Host) (settings : SC_MainSettings) :
  (∀ a b, Path.isAbsolute (path h) a = true →
          Path.isAbsolute (path h) (Path.join (path h) a b) = true) →
  Path.isAbsolute (path h) (vaultAbsolutePath h) = true →
  Path.isAbsolute (path h) (Executor.getWorkingDirectory h settings) = true.
Proof.
  intros Hjoin Hvault. unfold Executor.getWorkingDirectory.
  case_bool_decide; [done |].
  destruct (Path.isAbsolute (path h) (working_directory settings)) eqn:Habs;
    simpl; [done | by apply Hjoin].
Qed.

End ChildWorkingDirectory.

Lemma child_working_directory_absolute_witness :
  Path.posix_isAbsolute
    (Executor.getWorkingDirectory posix_host (settings_with "../scripts"))
  = true
  ∧ Executor.getWorkingDirectory posix_host (settings_with "../scripts")
    = "/home/user/scripts".
Proof.
  split; [| reflexivity].
  apply (child_working_directory_absolute posix_host
           (settings_with "../scripts")).
  - intros a b. apply posix_join_absolute.
  - reflexivity.
Defined.

(** ** More on buffered output *)
Section BufferedDispatch.
Import Task Executor.

Variables (t_shell_command : TShellCommand)
          (outputChannels : OutputHandlerConfigurations).

(** The exit handler of buffered mode throws exactly when a stream of the
    child process is missing. Otherwise it dispatches stdout untouched, and
    stderr either untouched or emptied; stderr is emptied only for an exit
    code on the ignore list, where every exit code that is not positive
    counts as 0. A positive exit code on the ignore list is never
    dispatched, and every exit code that is not positive goes out as 0. *)
Theorem buffered_dispatch_bounds child_process exitCode :
  let ignored := getIgnoreErrorCodes t_shell_command in
  match onExitBuffered t_shell_command outputChannels child_process exitCode with
  | Fulfilled d =>
      ∃ out err,
        cp_stdout child_process = Some out
        ∧ cp_stderr child_process = Some err
        ∧ dispatched_stdout d = default "" (read out).1
        ∧ dispatched_outputChannels d = outputChannels
        ∧ (dispatched_stderr d = default "" (read err).1
           ∨ dispatched_stderr d = ""
             ∧ ∃ code, exitCode = Some code
                       ∧ (if 0 <? code then code else 0) ∈ ignored)
        ∧ match dispatched_exitCode d with
          | Some code =>
              exitCode = Some code ∧ 0 < code ∧ code ∉ ignored
              ∨ code = 0 ∧ ∃ code', exitCode = Some code' ∧ code' <= 0
          | None =>
              exitCode = None
              ∨ ∃ code, exitCode = Some code ∧ 0 < code ∧ code ∈ ignored
          end
  | Rejected message =>
      message = "Child process's stdout and/or stderr stream is null."
      ∧ (cp_stdout child_process = None ∨ cp_stderr child_process = None)
  | Pending => False
  end.
Proof.
  simpl. unfold onExitBuffered.
  destruct (cp_stdout child_process) as [out |];
    [| split; [done | by left]].
  destruct (cp_stderr child_process) as [err |];
    [| split; [done | by right]].
  destruct exitCode as [code |].
  - destruct (Z.ltb_spec 0 code) as [Hpos | Hneg].
    + case_bool_decide as Hignored.
      * exists out, err. simpl. repeat split; try done.
        -- right. split; [done |]. exists code.
           destruct (Z.ltb_spec 0 code); [done | lia].
        -- right. by exists code.
      * exists out, err. simpl. repeat split; try done; [by left |].
        left. done.
    + exists out, err. simpl. repeat split; try done.
      * destruct (0 <? String.length _)%nat; [| by left].
        case_bool_decide as Hzero; [| by left].
        right. split; [done |]. exists code.
        destruct (Z.ltb_spec 0 code); [lia | done].
      * right. split; [done |]. by exists code.
  - exists out, err. simpl. repeat split; try done; by left.
Qed.

End BufferedDispatch.

(** ** More on the end of realtime output *)
Section RealtimeExitCodes.
Import Task Executor.

Variables (configurations : OutputHandlerConfigurations) (exitCode : option Z).

Lemma endRealtimeLoop_codes names : ∀ already codes t,
  endRealtimeLoop configurations exitCode names already = (Fulfilled codes, t) →
  NoDup already →
  NoDup codes
  ∧ (∀ code, code ∈ codes ↔
             code ∈ already ∨ code ∈ handler configurations <$> names.*1)
  ∧ length codes = (length already + length t)%nat.
Proof.
  induction names as [| [name [channel |]] names IH];
    intros already codes t Hrun Hnodup.
  - injection Hrun as <- <-. split; [done |]. split; [| simpl; lia].
    intros code. split; [by left |]. intros [? | Hin]; [done |].
    by apply elem_of_nil in Hin.
  - simpl in Hrun. case_bool_decide as Hcalled.
    + destruct (IH _ _ _ Hrun Hnodup) as (Hcodes & Hiff & Hlen).
      split; [done |]. split; [| done].
      intros code. rewrite Hiff. simpl. rewrite elem_of_cons.
      split; [tauto |]. intros [? | [-> | ?]]; tauto.
    + destruct (endRealtimeLoop configurations exitCode names
                  (already ++ [handler configurations name]))
        as [[codes' | |] t'] eqn:Hloop; simpl in Hrun; try discriminate Hrun.
      injection Hrun as <- <-.
      assert (NoDup (already ++ [handler configurations name])) as Hnodup'.
      { apply NoDup_app. split; [done |]. split; [| apply NoDup_singleton].
        intros code Hin Hin'. apply list_elem_of_singleton in Hin' as ->. done. }
      destruct (IH _ _ _ Hloop Hnodup') as (Hcodes & Hiff & Hlen).
      split; [done |]. split.
      * intros code. rewrite Hiff, elem_of_app, list_elem_of_singleton.
        simpl. rewrite elem_of_cons. tauto.
      * rewrite Hlen, length_app. simpl. lia.
  - simpl in Hrun. discriminate Hrun.
Qed.

(** The handler codes that the exit handler of realtime mode has marked as
    called are the handler codes of the streams, each one once, and there
    are as many [endRealtime] calls as marked codes. *)
Theorem endRealtime_marks_each_code_once (outputChannels : OutputChannels) codes :
  outcome (onExitRealtime configurations outputChannels exitCode)
  = Fulfilled codes →
  NoDup codes
  ∧ (∀ code, code ∈ codes ↔
             code ∈ handler configurations <$> outputChannels.*1)
  ∧ length (trace (onExitRealtime configurations outputChannels exitCode))
    = length codes.
Proof.
  unfold onExitRealtime. intros Hrun.
  destruct (endRealtimeLoop configurations exitCode outputChannels [])
    as [o t] eqn:Hloop. simpl in Hrun. subst o.
  destruct (endRealtimeLoop_codes _ _ _ _ Hloop (NoDup_nil_2))
    as (Hcodes & Hiff & Hlen).
  split; [done |]. split; [| done].
  intros code. rewrite Hiff. split; [| by right].
  intros [Hin | ?]; [by apply elem_of_nil in Hin | done].
Qed.

Lemma endRealtimeLoop_undefined before : ∀ already name after,
  (∀ n channel, (n, channel) ∈ before → channel ≠ None) →
  endRealtimeLoop configurations exitCode (before ++ (name, None) :: after)
    already
  = (Rejected "Output channel is undefined.",
     trace (endRealtimeLoop configurations exitCode before already)).
Proof.
  induction before as [| [n [channel |]] before IH];
    intros already name after Hdefined.
  - done.
  - assert (∀ n channel, (n, channel) ∈ before → channel ≠ None) as Hrest.
    { intros n' c Hin. apply (Hdefined n'). by apply list_elem_of_further. }
    simpl. case_bool_decide.
    + by apply IH.
    + rewrite (IH _ name after Hrest). simpl.
      by destruct (endRealtimeLoop configurations exitCode before _).
  - exfalso. apply (Hdefined n None); [apply list_elem_of_here | done].
Qed.

(** When a stream of the output channels holds no channel, the exit handler
    throws at that stream: the channels of the streams before it have been
    ended, those of the streams after it are never ended. *)
Theorem endRealtime_stops_at_undefined_channel before name after :
  (∀ n channel, (n, channel) ∈ before → channel ≠ None) →
  onExitRealtime configurations (before ++ (name, None) :: after) exitCode
  = (Rejected "Output channel is undefined.",
     trace (onExitRealtime configurations before exitCode)).
Proof. intros Hdefined. by apply endRealtimeLoop_undefined. Qed.

End RealtimeExitCodes.

Lemma endRealtime_marks_each_code_once_witness :
  NoDup ["notification"]
  ∧ length (Task.trace (Executor.onExitRealtime shared_handlers
                          shared_channels None)) = 1%nat.
Proof.
  destruct (endRealtime_marks_each_code_once shared_handlers None
              shared_channels ["notification"] eq_refl) as (Hnodup & _ & Hlen).
  split; [exact Hnodup | exact Hlen].
Defined.

Lemma endRealtime_stops_at_undefined_channel_witness :
  Executor.onExitRealtime
    {| Executor.stdout_handler := "notification";
       Executor.stderr_handler := "modal" |}
    [(Executor.stdout, Some 0%nat); (Executor.stderr, None)] (Some 0)
  = (Task.Rejected "Output channel is undefined.",
     [Executor.EvEndRealtime Executor.stdout 0%nat (Some 0)]).
Proof.
  apply (endRealtime_stops_at_undefined_channel
           {| Executor.stdout_handler := "notification";
              Executor.stderr_handler := "modal" |}
           (Some 0) [(Executor.stdout, Some 0%nat)] Executor.stderr []).
  intros n channel Hin. apply list_elem_of_singleton in Hin as [= -> ->]. done.
Defined.

(** ** Realtime output: nothing is lost *)
Section RealtimeConservation.
Import Task Executor.

Variable outputChannels : OutputChannels.

Lemma readSoFar_app name t1 t2 :
  readSoFar name (t1 ++ t2) = readSoFar name t1 +:+ readSoFar name t2.
Proof.
  induction t1 as [| e t1 IH]; [done |].
  destruct e; simpl; try exact IH.
  case_decide; [| exact IH]. by rewrite IH, append_assoc.
Qed.

Lemma concat_chunks_app (cs : list string) chunk :
  foldr String.append "" (cs ++ [chunk]) = foldr String.append "" cs +:+ chunk.
Proof.
  induction cs as [| c cs IH]; simpl; [apply append_empty_r |].
  by rewrite IH, append_assoc.
Qed.

(** Reading moves the whole buffer into the content that is read. *)
Lemma read_carries r :
  default "" (read r).1 +:+ foldr String.append "" (chunks (read r).2)
  = foldr String.append "" (chunks r).
Proof.
  unfold read. destruct (chunks r) as [| c cs] eqn:Hchunks; simpl.
  - by rewrite Hchunks.
  - apply append_empty_r.
Qed.

Lemma carried_pushChunk name chunk st n :
  carried (pushChunk name chunk st) n
  = carried st n +:+ (if decide (n = name) then chunk else "").
Proof.
  unfold carried.
  destruct name, n; simpl;
    rewrite ?concat_chunks_app, ?append_assoc, ?append_empty_r; done.
Qed.

Lemma carried_handleNewOutputContent name st n :
  carried (handleNewOutputContent outputChannels name st).2 n = carried st n.
Proof.
  unfold carried, handleNewOutputContent.
  destruct (channelOf outputChannels name) as [channel |];
    destruct name, n; simpl; rewrite read_setPaused; simpl;
    rewrite ?readSoFar_app; simpl;
    rewrite ?decide_True by done; rewrite ?append_empty_r;
    rewrite ?append_assoc; try rewrite read_carries; done.
Qed.

Lemma carried_handleNewOutputContentResume name content st n :
  carried (handleNewOutputContentResume name content st) n = carried st n.
Proof.
  unfold carried, handleNewOutputContentResume.
  destruct n; simpl; rewrite !readSoFar_app; simpl;
    by rewrite !append_empty_r.
Qed.

(** What a stream has carried (read so far, then still buffered) grows only
    when data arrives, and then by the chunk that arrives on that stream:
    the handler, from pausing to resuming, neither loses nor repeats any
    output. *)
Theorem realtime_output_conserved st st' :
  step outputChannels st st' →
  (∃ name chunk,
     st' = pushChunk name chunk st
     ∧ ∀ n, carried st' n
            = carried st n +:+ (if decide (n = name) then chunk else ""))
  ∨ ∀ n, carried st' n = carried st n.
Proof.
  intros [name chunk st0 | name st0 _ _ | name content st0 _].
  - left. exists name, chunk. split; [done |].
    intros n. apply carried_pushChunk.
  - right. intros n. apply carried_handleNewOutputContent.
  - right. intros n. apply carried_handleNewOutputContentResume.
Qed.

End RealtimeConservation.

(** ** Identifiers of new shell commands *)
Section NewIdentifiers.
Import Plugin.

(** The number behind the new identifier is the least natural number above
    every existing identifier that is a number. *)
Lemma new_id_number_least names n :
  foldl nextId 0 names = n ↔
  0 <= n
  ∧ (∀ id, id ∈ omap JS.parseInt names → id < n)
  ∧ (n = 0 ∨ n - 1 ∈ omap JS.parseInt names).
Proof.
  rewrite foldl_nextId.
  pose proof (foldl_raise_ge (omap JS.parseInt names) 0) as Hge.
  pose proof (foldl_raise_above (omap JS.parseInt names) 0) as Habove.
  pose proof (foldl_raise_attained (omap JS.parseInt names) 0) as Hattained.
  split.
  - intros <-. split; [done |]. split; [done |].
    destruct Hattained as [-> | (id & Hin & ->)]; [by left | right].
    by replace (id + 1 - 1) with id by lia.
  - intros (Hpos & Hall & Hleast).
    destruct Hattained as [Hzero | (id & Hin & Hid)].
    + destruct Hleast as [-> | Hin]; [done |].
      apply Habove in Hin. lia.
    + apply Hall in Hin as Hlt. destruct Hleast as [-> | Hin']; [lia |].
      apply Habove in Hin'. lia.
Qed.

(** The new identifier does not depend on the order in which the existing
    identifiers are enumerated. *)
Theorem generateNewShellCommandID_order_independent names names' :
  names ≡ₚ names' →
  generateNewShellCommandID_from names = generateNewShellCommandID_from names'.
Proof.
  intros Hperm. unfold generateNewShellCommandID_from. f_equal.
  symmetry. apply (proj2 (new_id_number_least names' (foldl nextId 0 names))).
  destruct (proj1 (new_id_number_least names (foldl nextId 0 names)) eq_refl)
    as (Hpos & Hall & Hleast).
  assert (∀ id, id ∈ omap JS.parseInt names' ↔ id ∈ omap JS.parseInt names)
    as Hsame.
  { intros id. rewrite !list_elem_of_omap.
    split; intros (name & Hin & Hparse); exists name;
      (split; [| done]); [by rewrite Hperm | by rewrite <- Hperm]. }
  split; [done |]. split.
  - intros id Hin. apply Hall. by apply Hsame.
  - destruct Hleast as [? | Hin]; [by left | right]. by apply Hsame.
Qed.

(** The new identifier is the name of no existing shell command, whatever
    the existing names look like. *)
Lemma generateNewShellCommandID_fresh {A} (m : gmap string A) :
  m !! generateNewShellCommandID m = None.
Proof.
  destruct (m !! generateNewShellCommandID m) as [a |] eqn:Hlookup; [| done].
  exfalso.
  assert (generateNewShellCommandID m ∈ (map_to_list m).*1) as Hin.
  { apply elem_of_own_property_names. by exists a. }
  unfold generateNewShellCommandID in Hin at 1.
  unfold generateNewShellCommandID_from in Hin.
  pose proof (new_id_above _ _ _ Hin (parseInt_String_of_number _)). lia.
Qed.

Section Creation.

Context {Configuration : Type}.
Variables (newShellCommandConfiguration : Configuration)
          (canAddToCommandPalette : Configuration → bool).

Local Notation "'create'" :=
  (newTShellCommand newShellCommandConfiguration canAddToCommandPalette).

(** After [loadTShellCommands()] the two containers hold the same names. *)
Lemma loadTShellCommands_names (st : Containers Configuration) name :
  is_Some (t_shell_commands (loadTShellCommands st) !! name)
  ↔ is_Some (shell_commands st !! name).
Proof.
  simpl. rewrite map_lookup_imap.
  destruct (shell_commands st !! name); simpl; split; intros [? ?]; eauto;
    done.
Qed.



End Creation.

(** Obsidian command identifiers keep shell commands apart: different shell
    command identifiers give different Obsidian command identifiers. *)
Theorem generateObsidianCommandId_injective id id' :
  generateObsidianCommandId id = generateObsidianCommandId id' → id = id'.
Proof. unfold generateObsidianCommandId. apply (inj (String.app _)). Qed.

End NewIdentifiers.

Lemma generateNewShellCommandID_order_independent_witness :
  Plugin.generateNewShellCommandID_from ["3"; "10"; "x"]
  = Plugin.generateNewShellCommandID_from ["x"; "10"; "3"]
  ∧ Plugin.generateNewShellCommandID_from ["x"; "10"; "3"] = "11".
Proof.
  split; [| reflexivity].
  apply generateNewShellCommandID_order_independent.
  etrans; [apply Permutation_swap |].
  etrans; [apply perm_skip, Permutation_swap |].
  apply perm_swap.
Defined.


Lemma generateObsidianCommandId_injective_witness :
  Plugin.generateObsidianCommandId "7" = "shell-command-7" ∧ "7" = "7".
Proof.
  split; [reflexivity |].
  by apply (generateObsidianCommandId_injective "7" "7").
Defined.

(** ** The command palette *)
Section Palette.
Import Executor Plugin.

Variables (c : PaletteCommand) (plugin : SC_Plugin).

(** Opening the command palette on a shell command that cannot be shown
    changes nothing. On one that can be shown it answers true and rewrites
    the cache entry of this shell command only: the entry holds the parsing
    process created for the preview when previews are switched on and the
    parsing succeeds, and nothing otherwise, so that no process of an earlier
    opening survives. *)
Theorem palette_preview_rewrites_own_entry :
  let id := getId (t_shell_command c) in
  let created := createParsingProcess (t_shell_command c) in
  let opened := checkCallback c true plugin in
  (canShowInCommandPalette c = false →
   opened = (Some false, plugin, []))
  ∧ (canShowInCommandPalette c = true →
     opened.1.1 = Some true
     ∧ plugin_settings opened.1.2 = plugin_settings plugin
     ∧ (∀ other, other ≠ id →
        cached_parsing_processes opened.1.2 !! other
        = cached_parsing_processes plugin !! other)
     ∧ cachedParsingProcess opened.1.2 id
       = if preview_variables_in_command_palette (plugin_settings plugin)
            && process created
         then Some created else None).
Proof.
  simpl. unfold checkCallback, cachedParsingProcess.
  destruct (canShowInCommandPalette c); simpl; [| by split].
  split; [done |]. intros _.
  destruct (preview_variables_in_command_palette (plugin_settings plugin));
    [destruct (process (createParsingProcess (t_shell_command c))) |];
    simpl; rewrite lookup_insert_eq;
    (split; [done |]); (split; [done |]); (split; [| done]);
    intros other Hne; by rewrite lookup_insert_ne.
Qed.

Lemma palette_preview_entry :
  canShowInCommandPalette c = true →
  cachedParsingProcess (checkCallback c true plugin).1.2
    (getId (t_shell_command c))
  = if preview_variables_in_command_palette (plugin_settings plugin)
       && process (createParsingProcess (t_shell_command c))
    then Some (createParsingProcess (t_shell_command c)) else None.
Proof.
  intros Hshow. unfold checkCallback, cachedParsingProcess. rewrite Hshow.
  destruct (preview_variables_in_command_palette (plugin_settings plugin));
    [destruct (process (createParsingProcess (t_shell_command c))) |];
    simpl; by rewrite lookup_insert_eq.
Qed.

(** Executing right after the palette was opened on a shell command runs
    the very process that the preview created when there is one, and a new
    process otherwise; a shell command whose parsing fails is not executed,
    its parsing errors are displayed instead. *)
Theorem palette_execution_after_preview :
  let id := getId (t_shell_command c) in
  let created := createParsingProcess (t_shell_command c) in
  let opened := (checkCallback c true plugin).1.2 in
  canShowInCommandPalette c = true →
  (checkCallback c false opened).2
  = EvPaletteProcess id ::
    if process created
    then [EvDoPreactionsAndExecuteShellCommand id created
            (preview_variables_in_command_palette (plugin_settings plugin))]
    else [EvPaletteDisplayErrorMessages id].
Proof.
  cbv zeta. intros Hshow.
  pose proof (palette_preview_entry Hshow) as Hentry.
  unfold checkCallback at 1. cbn [snd]. rewrite Hentry.
  unfold executor.
  destruct (preview_variables_in_command_palette (plugin_settings plugin));
    destruct (process (createParsingProcess (t_shell_command c))) eqn:Hprocess;
    simpl; by rewrite ?Hprocess.
Qed.

End Palette.

Lemma palette_preview_rewrites_own_entry_witness :
  Plugin.cachedParsingProcess
    (Plugin.checkCallback echo_palette true plugin_with_cache).1.2 "0"
  = Some parsing_echo
  ∧ Plugin.cached_parsing_processes
      (Plugin.checkCallback echo_palette true plugin_with_cache).1.2 !! "1"
    = Some (Some parsing_echo).
Proof.
  destruct (palette_preview_rewrites_own_entry echo_palette plugin_with_cache)
    as [_ Hopened].
  destruct (Hopened eq_refl) as (_ & _ & Hothers & Hown).
  split; [exact Hown |]. rewrite (Hothers "1"); [reflexivity | discriminate].
Defined.

Lemma palette_execution_after_preview_witness :
  (Plugin.checkCallback echo_palette false
     (Plugin.checkCallback echo_palette true plugin_with_cache).1.2).2
  = [Plugin.EvPaletteProcess "0";
     Plugin.EvDoPreactionsAndExecuteShellCommand "0" parsing_echo true].
Proof.
  exact (palette_execution_after_preview echo_palette plugin_with_cache eq_refl).
Defined.

(** ** The first version: previews that fail *)
Section LegacyPreview.
Import LegacyPlugin.

(** In the first version of the plugin, opening the palette when a variable
    of the shell command cannot be parsed leaves the table of preparsed
    configurations as it is. A configuration stored by an earlier opening
    is then still there, and it is what the next execution runs. *)
Theorem legacy_failed_preview_keeps_entry
    (parse : string → option string) command_id configuration plugin
    preparsed :
  preparsed_shell_command_configurations plugin !! command_id = Some preparsed →
  parse (shell_command configuration) = None →
  let opened :=
    (checkCallback parse command_id configuration true plugin).1.2 in
  opened = plugin
  ∧ (checkCallback parse command_id configuration false opened).2
    = [EvExecuteShellCommand (shell_command preparsed)].
Proof.
  intros Hstored Hfails. cbv zeta.
  assert ((checkCallback parse command_id configuration true plugin).1.2
          = plugin) as ->.
  { unfold checkCallback. rewrite Hfails.
    by destruct (preview_variables plugin). }
  split; [done |]. unfold checkCallback. simpl. by rewrite Hstored.
Qed.

End LegacyPreview.

Lemma legacy_failed_preview_keeps_entry_witness :
  (LegacyPlugin.checkCallback (fun _ => None) "0"
     {| LegacyPlugin.shell_command := "echo {{title}}";
        LegacyPlugin.alias := "" |}
     false
     {| LegacyPlugin.preview_variables := true;
        LegacyPlugin.preparsed_shell_command_configurations :=
          {[ "0" := {| LegacyPlugin.shell_command := "echo Old";
                       LegacyPlugin.alias := "" |} ]} |}).2
  = [LegacyPlugin.EvExecuteShellCommand "echo Old"].
Proof.
  destruct (legacy_failed_preview_keeps_entry (fun _ => None) "0"
              {| LegacyPlugin.shell_command := "echo {{title}}";
                 LegacyPlugin.alias := "" |}
              {| LegacyPlugin.preview_variables := true;
                 LegacyPlugin.preparsed_shell_command_configurations :=
                   {[ "0" := {| LegacyPlugin.shell_command := "echo Old";
                                LegacyPlugin.alias := "" |} ]} |}
              {| LegacyPlugin.shell_command := "echo Old";
                 LegacyPlugin.alias := "" |})
    as [Hopened Hrun]; [by vm_compute | reflexivity |].
  rewrite Hopened in Hrun. exact Hrun.
Defined.

(** ** The settings tab of the first version *)
Section LegacySettings.
Import LegacyPlugin.

(** Whether the command of a name is one that the button deletes. *)
Local Notation "'cleared' m" :=
  (fun id : string => match m !! id with
                      | Some configuration => deletable id configuration
                      | None => false
                      end) (at level 10, m at level 9).

Lemma deleteIfCleared_lookup st k id :
  commands (deleteIfCleared st k) !! id
  = if bool_decide (id = k) && cleared (commands st) id then None
    else commands st !! id.
Proof.
  unfold deleteIfCleared. case_bool_decide as Hid; simpl.
  - subst id. destruct (commands st !! k) as [c |] eqn:Hk; [| by rewrite Hk].
    destruct (deletable k c); simpl; [apply lookup_delete_eq | done].
  - destruct (commands st !! k) as [c |]; [| done].
    destruct (deletable k c); simpl; [| done]. by rewrite lookup_delete_ne.
Qed.

Lemma deleteIfCleared_registered st k id :
  registered (deleteIfCleared st k) !! id
  = if bool_decide (id = k) && cleared (commands st) id then None
    else registered st !! id.
Proof.
  unfold deleteIfCleared. case_bool_decide as Hid; simpl.
  - subst id. destruct (commands st !! k) as [c |] eqn:Hk; [| done].
    destruct (deletable k c); simpl; [apply lookup_delete_eq | done].
  - destruct (commands st !! k) as [c |]; [| done].
    destruct (deletable k c); simpl; [| done]. by rewrite lookup_delete_ne.
Qed.

Lemma foldl_deleteIfCleared l : ∀ st id,
  commands (foldl deleteIfCleared st l) !! id
  = (if bool_decide (id ∈ l) && cleared (commands st) id then None
     else commands st !! id)
  ∧ registered (foldl deleteIfCleared st l) !! id
    = (if bool_decide (id ∈ l) && cleared (commands st) id then None
       else registered st !! id).
Proof.
  induction l as [| k l IH]; intros st id; [done |].
  simpl. destruct (IH (deleteIfCleared st k) id) as [-> ->].
  rewrite !deleteIfCleared_lookup, !deleteIfCleared_registered.
  assert (bool_decide (id ∈ k :: l)
          = bool_decide (id = k) || bool_decide (id ∈ l)) as ->.
  { rewrite <- bool_decide_or. apply bool_decide_ext, elem_of_cons. }
  destruct (bool_decide (id = k)), (bool_decide (id ∈ l)),
    (commands st !! id) as [c |]; simpl; try done;
    destruct (deletable id c) eqn:Hdel; simpl; rewrite ?Hdel; done.
Qed.

Lemma foldl_deleteIfCleared_count l : ∀ st,
  NoDup l →
  count_deletions (foldl deleteIfCleared st l)
  = (count_deletions st + length (List.filter (cleared (commands st)) l))%nat.
Proof.
  induction l as [| k l IH]; intros st Hnodup; simpl; [lia |].
  apply NoDup_cons in Hnodup as [Hk Hnodup].
  rewrite (IH _ Hnodup).
  assert (List.filter (cleared (commands (deleteIfCleared st k))) l
          = List.filter (cleared (commands st)) l) as ->.
  { apply List.filter_ext_in. intros id Hin.
    rewrite deleteIfCleared_lookup.
    rewrite bool_decide_eq_false_2; [done |].
    intros ->. apply Hk. by apply list_elem_of_In. }
  unfold deleteIfCleared.
  destruct (commands st !! k) as [c |]; [| simpl; lia].
  destruct (deletable k c); simpl; lia.
Qed.

Lemma foldl_deleteIfCleared_size l : ∀ st,
  (size (commands (foldl deleteIfCleared st l))
   + count_deletions (foldl deleteIfCleared st l)
   = size (commands st) + count_deletions st)%nat.
Proof.
  induction l as [| k l IH]; intros st; [done |].
  simpl. rewrite IH. unfold deleteIfCleared.
  destruct (commands st !! k) as [c |] eqn:Hk; [| done].
  destruct (deletable k c); [| done]. simpl.
  rewrite map_size_delete, Hk. simpl.
  assert (size (commands st) ≠ 0)%nat; [| lia].
  intros Hempty%map_size_empty_inv. by rewrite Hempty, lookup_empty in Hk.
Qed.

Lemma nothing_cleared_unchanged l : ∀ st,
  (∀ id, cleared (commands st) id = false) →
  foldl deleteIfCleared st l = st.
Proof.
  induction l as [| k l IH]; intros st Hnone; [done |].
  simpl. assert (deleteIfCleared st k = st) as ->; [| by apply IH].
  unfold deleteIfCleared. specialize (Hnone k).
  destruct (commands st !! k) as [c |]; [| done]. by rewrite Hnone.
Qed.

Variables (names : list string)
          (shell_commands : gmap string ShellCommandConfiguration)
          (obsidian_commands : gmap string string).

Hypothesis names_enumerated : names ≡ₚ (map_to_list shell_commands).*1.

Lemma cleared_enumerated id :
  bool_decide (id ∈ names) && cleared shell_commands id
  = cleared shell_commands id.
Proof.
  cbv beta.
  destruct (shell_commands !! id) as [c |] eqn:Hid; [| apply andb_false_r].
  rewrite bool_decide_eq_true_2; [done |].
  rewrite names_enumerated. apply elem_of_own_property_names. eauto.
Qed.

Lemma applyDeletions_from_commands id :
  commands (applyDeletions_from names shell_commands obsidian_commands).1 !! id
  = if cleared shell_commands id then None else shell_commands !! id.
Proof.
  unfold applyDeletions_from. cbn [fst].
  destruct (foldl_deleteIfCleared names
              {| commands := shell_commands; registered := obsidian_commands;
                 count_deletions := 0 |} id) as [-> _].
  simpl. by rewrite cleared_enumerated.
Qed.

(** "APPLY DELETIONS" removes exactly the shell commands whose text is
    empty, from the settings and from the palette alike, and keeps every
    other shell command as it is, in whatever order the loop meets the shell
    commands. The counter is the number of shell commands removed, and the
    notice reports it. *)
Theorem applyDeletions_removes_cleared_commands :
  let st := (applyDeletions_from names shell_commands obsidian_commands).1 in
  let notice :=
    (applyDeletions_from names shell_commands obsidian_commands).2 in
  (∀ id, commands st !! id
         = if cleared shell_commands id then None else shell_commands !! id)
  ∧ (∀ id, registered st !! id
           = if cleared shell_commands id then None
             else obsidian_commands !! id)
  ∧ (size shell_commands = size (commands st) + count_deletions st)%nat
  ∧ count_deletions st
    = length (List.filter (cleared shell_commands) names)
  ∧ (notice = "Nothing to delete :)" ↔ commands st = shell_commands).
Proof.
  cbv zeta. split; [apply applyDeletions_from_commands |].
  unfold applyDeletions_from. cbn [fst snd].
  set (start := {| commands := shell_commands; registered := obsidian_commands;
                   count_deletions := 0 |}).
  pose proof (foldl_deleteIfCleared_size names start) as Hsize.
  simpl in Hsize.
  split.
  { intros id. destruct (foldl_deleteIfCleared names start id) as [_ ->].
    simpl. by rewrite cleared_enumerated. }
  split; [lia |]. split.
  { rewrite foldl_deleteIfCleared_count; [done |].
    rewrite names_enumerated. apply NoDup_fst_map_to_list. }
  destruct (count_deletions (foldl deleteIfCleared start names)) as [| n]
    eqn:Hcount; simpl.
  - split; [intros _ | done].
    apply map_eq. intros id.
    pose proof (applyDeletions_from_commands id) as Hid.
    unfold applyDeletions_from in Hid. cbn [fst] in Hid. fold start in Hid.
    rewrite Hid. clear Hid.
    destruct (shell_commands !! id) as [c |] eqn:Hc; [| done].
    destruct (deletable id c) eqn:Hdel; [| done].
    exfalso.
    assert (length (List.filter (cleared shell_commands) names) = 0%nat)
      as Hnone.
    { rewrite <- Hcount. rewrite foldl_deleteIfCleared_count; [done |].
      rewrite names_enumerated. apply NoDup_fst_map_to_list. }
    apply nil_length_inv in Hnone.
    assert (id ∈ names) as Hin.
    { rewrite names_enumerated. apply elem_of_own_property_names. eauto. }
    assert (In id (List.filter (cleared shell_commands) names)) as Hfiltered.
    { apply List.filter_In. split; [by apply list_elem_of_In |].
      by rewrite Hc. }
    rewrite Hnone in Hfiltered. destruct Hfiltered.
  - split; [discriminate |].
    intros Hsame. rewrite Hsame in Hsize. lia.
Qed.

(** Pressing "APPLY DELETIONS" a second time deletes nothing and says so. *)
Theorem applyDeletions_twice :
  let st := (applyDeletions_from names shell_commands obsidian_commands).1 in
  ∀ names',
    applyDeletions_from names' (commands st) (registered st)
    = ({| commands := commands st; registered := registered st;
          count_deletions := 0 |}, "Nothing to delete :)").
Proof.
  cbv zeta. intros names'. unfold applyDeletions_from at 1.
  rewrite nothing_cleared_unchanged; [done |].
  intros id.
  lazymatch goal with
  | |- context [commands {| commands := ?m; registered := ?r;
                            count_deletions := ?n |}] =>
      change (commands {| commands := m; registered := r;
                          count_deletions := n |}) with m
  end.
  rewrite applyDeletions_from_commands.
  destruct (shell_commands !! id) as [c |] eqn:Hc; [| done].
  destruct (deletable id c) eqn:Hdel; [done |]. by rewrite Hdel.
Qed.

End LegacySettings.

Lemma applyDeletions_removes_cleared_commands_witness :
  LegacyPlugin.commands
    (LegacyPlugin.applyDeletions legacy_commands legacy_registered).1 !! "1"
  = None
  ∧ LegacyPlugin.registered
      (LegacyPlugin.applyDeletions legacy_commands legacy_registered).1 !! "2"
    = Some "Execute: pwd"
  ∧ LegacyPlugin.count_deletions
      (LegacyPlugin.applyDeletions legacy_commands legacy_registered).1 = 1%nat.
Proof.
  destruct (applyDeletions_removes_cleared_commands
              (map_to_list legacy_commands).*1 legacy_commands
              legacy_registered (reflexivity _))
    as (Hcommands & Hregistered & Hsize & Hcount & _).
  split; [apply (Hcommands "1") |]. split; [apply (Hregistered "2") |].
  unfold LegacyPlugin.applyDeletions. rewrite Hcount. by vm_compute.
Defined.

Lemma applyDeletions_twice_witness :
  LegacyPlugin.applyDeletions_from ["2"; "0"]
    (LegacyPlugin.commands
       (LegacyPlugin.applyDeletions legacy_commands legacy_registered).1)
    (LegacyPlugin.registered
       (LegacyPlugin.applyDeletions legacy_commands legacy_registered).1)
  = ({| LegacyPlugin.commands :=
          LegacyPlugin.commands
            (LegacyPlugin.applyDeletions legacy_commands legacy_registered).1;
        LegacyPlugin.registered :=
          LegacyPlugin.registered
            (LegacyPlugin.applyDeletions legacy_commands legacy_registered).1;
        LegacyPlugin.count_deletions := 0 |}, "Nothing to delete :)").
Proof.
  apply (applyDeletions_twice (map_to_list legacy_commands).*1 legacy_commands
           legacy_registered (reflexivity _) ["2"; "0"]).
Defined.

(** ** The duration of error messages *)
Section ErrorMessageDuration.
Import LegacyPlugin.

(** The duration of error messages stays between 1 and 180 seconds whatever
    is typed; it changes only to the number that [parseInt] reads from the
    text, and the text that the field shows for a duration in the range
    sets that duration. *)
Theorem error_message_duration_in_range duration_string error_message_duration :
  1 <= error_message_duration <= 180 →
  let duration :=
    changeErrorMessageDuration duration_string error_message_duration in
  1 <= duration <= 180
  ∧ (duration ≠ error_message_duration →
     JS.parseInt duration_string = Some duration)
  ∧ (∀ n, 1 <= n <= 180 →
       changeErrorMessageDuration (JS.String_of_number n)
         error_message_duration = n)
  ∧ (∀ n, changeErrorMessageDuration
            (JS.String_of_number (changeErrorMessageDuration
                                    (JS.String_of_number n)
                                    error_message_duration))
            error_message_duration
          = changeErrorMessageDuration (JS.String_of_number n)
              error_message_duration).
Proof.
  intros Hrange. cbv zeta.
  assert (∀ n, changeErrorMessageDuration (JS.String_of_number n)
                 error_message_duration
               = if (1 <=? n) && (n <=? 180) then n
                 else error_message_duration) as Hshown.
  { intros n. unfold changeErrorMessageDuration.
    by rewrite parseInt_String_of_number. }
  split; [| split; [| split]].
  - unfold changeErrorMessageDuration.
    destruct (JS.parseInt duration_string) as [d |]; [| done].
    destruct (1 <=? d) eqn:Hlow; [| done].
    destruct (d <=? 180) eqn:Hhigh; [| done]. simpl. lia.
  - unfold changeErrorMessageDuration.
    destruct (JS.parseInt duration_string) as [d |]; [| done].
    by destruct ((1 <=? d) && (d <=? 180)).
  - intros n Hn. rewrite Hshown.
    destruct (1 <=? n) eqn:Hlow; [| lia].
    destruct (n <=? 180) eqn:Hhigh; [done | lia].
  - intros n. rewrite !Hshown.
    destruct ((1 <=? n) && (n <=? 180)) eqn:Hn; [by rewrite Hn |].
    destruct (1 <=? error_message_duration) eqn:Hlow; [| lia].
    destruct (error_message_duration <=? 180) eqn:Hhigh; [done | lia].
Qed.

End ErrorMessageDuration.

Lemma error_message_duration_in_range_witness :
  1 <= LegacyPlugin.changeErrorMessageDuration "45 s" 20 <= 180
  ∧ LegacyPlugin.changeErrorMessageDuration "0" 20 = 20.
Proof.
  split.
  - apply (error_message_duration_in_range "45 s" 20). lia.
  - by vm_compute.
Defined.

(** ** What a prompt field holds after its default value is applied *)
Section DefaultValueParsing.
Import PromptField.

Variable parseVariables : string → ParsingResult.

(** The default value is parsed twice: once to decide what the field shows,
    and once more on what the field then shows, which is what sets the
    parsed value and the parsing errors. A default value that fails to
    parse leaves the field with the text as configured and with the errors
    of that text, so that the value handed on falls back to the text as
    configured; a parsed value, when there is one, is the value handed on. *)
Theorem applyDefaultValue_parses_shown_text (f : PromptField) :
  let template := default_value (configuration f) in
  let first := parseVariables template in
  let f' := applyDefaultValue parseVariables f in
  let second := parseVariables (getValue f') in
  getParsedValue f' = (if succeeded second then parsed_content second else None)
  ∧ getParsingErrors f'
    = (if succeeded second then [] else error_messages second)
  ∧ (succeeded first = false →
     getParsedValue f' = None
     ∧ getParsingErrors f' = error_messages first
     ∧ getParsedOrRawValue f' = template
     ∧ validate f'
       = negb (required (configuration f)) || (0 <? String.length template)%nat)
  ∧ (∀ content, getParsedValue f' = Some content →
       getParsedOrRawValue f' = content
       ∧ succeeded first = true ∧ succeeded second = true
       ∧ getParsingErrors f' = [])
  ∧ on_change_calls f'
    = (if has_on_change_callback f then S (on_change_calls f)
       else on_change_calls f).
Proof.
  cbv zeta.
  unfold applyDefaultValue, getParsedValue, getParsingErrors,
    getParsedOrRawValue, validate, isFilled.
  rewrite !valueHasChanged_value.
  destruct (succeeded (parseVariables (default_value (configuration f))))
    eqn:Hfirst; cbn [negb];
    unfold valueHasChanged, setValue, getValue; cbn [text_component_value].
  - destruct (succeeded (parseVariables
                (default "" (parsed_content
                   (parseVariables (default_value (configuration f)))))))
      eqn:Hsecond; simpl.
    + split; [done |]. split; [done |]. split; [done |]. split; [| done].
      by intros content ->.
    + split; [done |]. split; [done |]. split; [done |]. split; [| done].
      intros content Hcontent. discriminate Hcontent.
  - simpl. rewrite Hfirst. simpl.
    split; [done |]. split; [done |]. split.
    + intros _. split; [done |]. split; [done |]. split; [done |].
      by destruct (required (configuration f)).
    + split; [| done]. intros content Hcontent. discriminate Hcontent.
Qed.

End DefaultValueParsing.

Lemma applyDefaultValue_parses_shown_text_witness :
  PromptField.getParsedValue
    (PromptField.applyDefaultValue sample_parseVariables
       (sample_field "{{unknown}}")) = None
  ∧ PromptField.getParsingErrors
      (PromptField.applyDefaultValue sample_parseVariables
         (sample_field "{{unknown}}")) = ["Unrecognized variable: unknown"]
  ∧ PromptField.getParsedOrRawValue
      (PromptField.applyDefaultValue sample_parseVariables
         (sample_field "{{unknown}}")) = "{{unknown}}".
Proof.
  destruct (applyDefaultValue_parses_shown_text sample_parseVariables
              (sample_field "{{unknown}}"))
    as (_ & _ & Hfailed & _).
  destruct (Hfailed eq_refl) as (Hvalue & Herrors & Hraw & _).
  split; [exact Hvalue |]. split; [exact Herrors | exact Hraw].
Defined.


Lemma realtime_output_conserved_witness :
  carried warning_dispatched Executor.stderr
  = carried (Executor.pushChunk Executor.stderr "warning"
               Executor.initialRealtimeState) Executor.stderr.
Proof.
  destruct (realtime_output_conserved shared_channels
              (Executor.pushChunk Executor.stderr "warning"
                 Executor.initialRealtimeState)
              warning_dispatched) as [(name & chunk & Hpush & _) | Hsame].
  - apply (Executor.step_readable shared_channels Executor.stderr);
      [| reflexivity].
    change (Executor.stderr ∈ [Executor.stdout; Executor.stderr]).
    apply list_elem_of_further, list_elem_of_here.
  - vm_compute in Hpush. destruct name; discriminate Hpush.
  - exact (Hsame Executor.stderr).
Defined.

(** ** A confirmation that is not given *)
Section DeclinedConfirmation.
Import Task Executor.

Variables (env : Env) (t_shell_command : TShellCommand).

Hypothesis confirmation_configured : confirm_execution t_shell_command = true.
Hypothesis not_confirmed : confirmation_modal_promise env ≠ Fulfilled true.

Lemma unconfirmed_pipeline :
  preaction_pipeline env t_shell_command
  = (Pending,
     [EvConfirmationModalOpen (getAliasOrShellCommand t_shell_command)]).
Proof.
  unfold preaction_pipeline, askConfirmation.
  rewrite confirmation_configured.
  destruct (confirmation_modal_promise env) as [[|] | message |];
    [done | | |]; simpl; by rewrite chain_pending.
Qed.


End DeclinedConfirmation.


(** ** The directory of the shell and the directory of the child process *)

Lemma getWorkingDirectory_translates_executor_witness :
  Shell.getWorkingDirectory posix_host (settings_with "scripts") Shell.mounted_shell
  = Shell.translateAbsolutePath Shell.mounted_shell "/home/user/vault/scripts".
Proof.
  apply (getWorkingDirectory_translates_executor posix_host
           (settings_with "scripts") Shell.mounted_shell).
  right. reflexivity.
Defined.
